(** * Game of Life on a sparse set of live cells (Source.cpp)

    A shallow embedding of [struct Coordinate] and [class Life] of
    Source.cpp, followed by the properties of the generation-advance
    algorithm.

    Conventions of the embedding.
    - [int] is a 32-bit two's-complement integer, carried as a [Z]; the
      arithmetic of [Neighbours] is written with its wrap-around
      ([Int.add], [Int.sub]).  The language leaves signed overflow
      undefined; the wrap-around is what the usual targets compute.
      What only holds away from the ends of the range carries the
      hypothesis [no_overflow].
    - [unsigned] is a 32-bit natural number, carried as a [Z]; [gen += 1]
      is the addition modulo [2^32] ([Unsigned.add]).
    - [std::set<Coordinate>] is the list of its elements in iteration
      order, that is strictly ascending for [Coordinate::operator<]
      ([is_set]).  [insert], [set_intersection] and [set_difference] are
      the algorithms of the standard library on such sequences; they
      compare with [operator<] only.
    - A member function is a function of the state [Life]; a loop over a
      container is a [fold_left] over its elements in order; the loop of
      [AdvanceTo] takes a bound on its number of turns.
    - A [std::ostream] is the string of the characters written to it,
      numbers being written in decimal as the default flags of a stream
      have it; [size_t] is 64 bits wide; [assert] is active. *)

From Stdlib Require Import ZArith List Bool Lia Permutation.
From Stdlib Require String Ascii DecimalString DecimalZ DecimalPos.
Import ListNotations.
Local Open Scope Z_scope.

(* ================================================================== *)
(** * Machine integers *)

Module Int.
Definition min_int : Z := -2147483648.
Definition max_int : Z := 2147483647.
Definition modulus : Z := 4294967296.

(** The representative of [z] modulo [2^32] in [min_int .. max_int]. *)
Definition wrap (z : Z) : Z := (z - min_int) mod modulus + min_int.

Definition add (a b : Z) : Z := wrap (a + b).
Definition sub (a b : Z) : Z := wrap (a - b).
End Int.

Module Unsigned.
Definition modulus : Z := 4294967296.
Definition max_unsigned : Z := 4294967295.

Definition wrap (z : Z) : Z := z mod modulus.

Definition add (a b : Z) : Z := wrap (a + b).
End Unsigned.

(* ================================================================== *)
(** * Coordinate *)

Record Coordinate : Type := mkCoordinate { X : Z; Y : Z }.

(** [Coordinate::operator==]. *)
Definition Coordinate_eqb (a xy : Coordinate) : bool :=
  if (X a =? X xy) && (Y a =? Y xy) then true else false.

(** [Coordinate::operator<]. *)
Definition Coordinate_ltb (a xy : Coordinate) : bool :=
  if X a <? X xy then true
  else if (X a =? X xy) && (Y a <? Y xy) then true
  else false.

Definition Coordinate_lt (a b : Coordinate) : Prop := Coordinate_ltb a b = true.

(* ================================================================== *)
(** * std::set<Coordinate> *)

Definition set : Type := list Coordinate.

(** The class invariant of the container: strictly ascending. *)
Fixpoint sortedb (s : set) : bool :=
  match s with
  | [] => true
  | x :: t => forallb (Coordinate_ltb x) t && sortedb t
  end.

Definition is_set (s : set) : Prop := sortedb s = true.

(** Membership, with the equivalence the container uses: neither
    element is below the other. *)
Definition equiv (a b : Coordinate) : bool :=
  negb (Coordinate_ltb a b) && negb (Coordinate_ltb b a).

Definition mem (x : Coordinate) (s : set) : bool := existsb (equiv x) s.

(** [std::set::insert(value)]: nothing happens when an equivalent
    element is present. *)
Fixpoint insert (x : Coordinate) (s : set) : set :=
  match s with
  | [] => [x]
  | y :: t =>
      if Coordinate_ltb x y then x :: s
      else if Coordinate_ltb y x then y :: insert x t
      else s
  end.

(** [std::set::insert(first, last)], and the output iterator
    [std::inserter(s, s.end())] fed with a sequence. *)
Definition insert_range (xs : list Coordinate) (s : set) : set :=
  fold_left (fun acc x => insert x acc) xs s.

Definition inserter (s : set) (out : list Coordinate) : set :=
  insert_range out s.

(** Construction from an initializer list. *)
Definition set_of_list (xs : list Coordinate) : set := insert_range xs [].

(** [std::set_intersection] on two ascending sequences: the sequence
    written to the output iterator. *)
Fixpoint set_intersection (a : list Coordinate) : list Coordinate -> list Coordinate :=
  match a with
  | [] => fun _ => []
  | x :: a' =>
      fix against (b : list Coordinate) : list Coordinate :=
        match b with
        | [] => []
        | y :: b' =>
            if Coordinate_ltb x y then set_intersection a' b
            else if Coordinate_ltb y x then against b'
            else x :: set_intersection a' b'
        end
  end.

(** [std::set_difference] on two ascending sequences. *)
Fixpoint set_difference (a : list Coordinate) : list Coordinate -> list Coordinate :=
  match a with
  | [] => fun _ => []
  | x :: a' =>
      fix against (b : list Coordinate) : list Coordinate :=
        match b with
        | [] => x :: a'
        | y :: b' =>
            if Coordinate_ltb x y then x :: set_difference a' b
            else if Coordinate_ltb y x then against b'
            else set_difference a' b'
        end
  end.

Definition size (s : set) : nat := length s.

(** A loop that inserts the elements of [l] that pass the test [p]. *)
Definition insert_if (p : Coordinate -> bool) (l : list Coordinate) (s : set) : set :=
  fold_left (fun next it => if p it then insert it next else next) l s.

(** The loop of [AllDeadNeighbours] that collects the neighbours. *)
Definition collect_neighbours (nb : Coordinate -> set) (live : list Coordinate) (dn : set) : set :=
  fold_left (fun dn it => insert_range (nb it) dn) live dn.

(* ================================================================== *)
(** * class Life *)

Record Life : Type := mkLife {
  LiveCells : set;
  gen : Z;
  LiveCellsNextGen : set
}.

(** The constructor [Life::Life(std::set<Coordinate>)]. *)
Definition newLife (LiveCells_ : set) : Life :=
  {| LiveCells := LiveCells_; gen := 0; LiveCellsNextGen := [] |}.

(** The callers build the argument from a braced list of coordinates. *)
Definition newLife_of_list (cells : list Coordinate) : Life :=
  newLife (set_of_list cells).

Definition Gen (g : Life) : Z := gen g.

Definition cardLiveCells (g : Life) : Z :=
  Unsigned.wrap (Z.of_nat (size (LiveCells g))).

(** [Life::Neighbours]. *)
Definition Neighbours (xy : Coordinate) : set :=
  let sw := mkCoordinate (Int.sub (X xy) 1) (Int.sub (Y xy) 1) in
  let w := mkCoordinate (Int.sub (X xy) 1) (Y xy) in
  let nw := mkCoordinate (Int.sub (X xy) 1) (Int.add (Y xy) 1) in
  let s := mkCoordinate (X xy) (Int.sub (Y xy) 1) in
  let n := mkCoordinate (X xy) (Int.add (Y xy) 1) in
  let se := mkCoordinate (Int.add (X xy) 1) (Int.sub (Y xy) 1) in
  let e := mkCoordinate (Int.add (X xy) 1) (Y xy) in
  let ne := mkCoordinate (Int.add (X xy) 1) (Int.add (Y xy) 1) in
  set_of_list [sw; w; nw; s; n; se; e; ne].

(** [Life::AllDeadNeighbours]. *)
Definition AllDeadNeighbours (g : Life) : set :=
  let dn := collect_neighbours Neighbours (LiveCells g) [] in
  inserter [] (set_difference dn (LiveCells g)).

(** One turn of the loop of [Life::Birth]; the state is the local set
    [count] and the member [LiveCellsNextGen]. *)
Definition Birth_body (live : set) (st : set * set) (it : Coordinate) : set * set :=
  let '(count, next) := st in
  let nbrs := Neighbours it in
  let count := inserter count (set_intersection nbrs live) in
  let next := if Nat.eqb (size count) 3 then insert it next else next in
  ([], next).

(** [Life::Birth]. *)
Definition Birth (g : Life) : Life :=
  let DeadCells := AllDeadNeighbours g in
  let st := fold_left (Birth_body (LiveCells g)) DeadCells ([], LiveCellsNextGen g) in
  {| LiveCells := LiveCells g; gen := gen g; LiveCellsNextGen := snd st |}.

(** One turn of the loop of [Life::SurvivalAndDeath]. *)
Definition Survival_body (live : set) (st : set * set) (it : Coordinate) : set * set :=
  let '(count, next) := st in
  let nbrs := Neighbours it in
  let count := inserter count (set_intersection nbrs live) in
  let next :=
    if Nat.eqb (size count) 2 || Nat.eqb (size count) 3 then insert it next else next in
  ([], next).

(** [Life::SurvivalAndDeath]. *)
Definition SurvivalAndDeath (g : Life) : Life :=
  let st := fold_left (Survival_body (LiveCells g)) (LiveCells g) ([], LiveCellsNextGen g) in
  {| LiveCells := LiveCells g; gen := gen g; LiveCellsNextGen := snd st |}.

(** [Life::AdvanceOne]. *)
Definition AdvanceOne (g : Life) : Life :=
  let g1 := Birth g in
  let g2 := SurvivalAndDeath g1 in
  {| LiveCells := LiveCellsNextGen g2;
     gen := Unsigned.add (gen g2) 1;
     LiveCellsNextGen := [] |}.

(** [Life::AdvanceTo]: the loop [while (gen < n) AdvanceOne();], cut
    after [fuel] turns.  [None] says that the loop was still running. *)
Fixpoint AdvanceTo_loop (fuel : nat) (n : Z) (g : Life) : option Life :=
  if gen g <? n then
    match fuel with
    | O => None
    | S fuel' => AdvanceTo_loop fuel' n (AdvanceOne g)
    end
  else Some g.

(** The loop with as many turns as the distance to the target. *)
Definition AdvanceTo (n : Z) (g : Life) : option Life :=
  AdvanceTo_loop (Z.to_nat (n - gen g)) n g.

(** [k] calls of [AdvanceOne] in a row. *)
Definition AdvanceMany (k : N) (g : Life) : Life := N.iter k AdvanceOne g.

(** [AdvanceOne] repeated as long as [gen < n] holds: as many calls as
    [n] is ahead of [gen], none when it is not. *)
Definition AdvanceTo_result (n : Z) (g : Life) : Life :=
  AdvanceMany (Z.to_N (n - gen g)) g.

(* ================================================================== *)
(** * States of the engine *)

Definition is_unsigned (z : Z) : Prop := 0 <= z <= Unsigned.max_unsigned.

(** What the class maintains between two calls of its public members. *)
Definition wf (g : Life) : Prop :=
  is_set (LiveCells g) /\ is_unsigned (gen g) /\ LiveCellsNextGen g = [].

(** The states a caller can produce: construction, then any sequence of
    [AdvanceOne] and [AdvanceTo]. *)
Inductive reachable : Life -> Prop :=
| reach_new : forall cells, reachable (newLife_of_list cells)
| reach_one : forall g, reachable g -> reachable (AdvanceOne g)
| reach_to : forall g n fuel g',
    reachable g -> is_unsigned n ->
    AdvanceTo_loop fuel n g = Some g' -> reachable g'.

(* ================================================================== *)
(** * The vocabulary of the specification *)

(** Chebyshev (king-move) distance on the unbounded grid. *)
Definition chebyshev (a b : Coordinate) : Z :=
  Z.max (Z.abs (X b - X a)) (Z.abs (Y b - Y a)).

(** Coordinates that a pair of [int] can hold. *)
Definition representable (c : Coordinate) : Prop :=
  Int.min_int <= X c <= Int.max_int /\ Int.min_int <= Y c <= Int.max_int.

(** Coordinates whose neighbours are computed without overflow. *)
Definition no_overflow (c : Coordinate) : Prop :=
  Int.min_int < X c < Int.max_int /\ Int.min_int < Y c < Int.max_int.

(** The number of neighbours of [c] that are alive in [live]. *)
Definition live_neighbours (live : set) (c : Coordinate) : nat :=
  length (filter (fun n => mem n live) (Neighbours c)).

(** [c] is a neighbour of at least one live cell. *)
Definition adjacent_to_live (live : set) (c : Coordinate) : Prop :=
  exists l, In l live /\ In c (Neighbours l).

(** The birth rule, in the words of the specification. *)
Definition born (live : set) (c : Coordinate) : Prop :=
  ~ In c live /\ adjacent_to_live live c /\ live_neighbours live c = 3%nat.

(** The survival rule, in the words of the specification. *)
Definition survives (live : set) (c : Coordinate) : Prop :=
  In c live /\ (live_neighbours live c = 2%nat \/ live_neighbours live c = 3%nat).

(** The cells [Birth] adds when it starts from an empty scratch set. *)
Definition birth_result (live : set) : set :=
  LiveCellsNextGen (Birth (mkLife live 0 [])).

(** The cells [SurvivalAndDeath] adds when it starts from an empty
    scratch set. *)
Definition survival_result (live : set) : set :=
  LiveCellsNextGen (SurvivalAndDeath (mkLife live 0 [])).

(* ================================================================== *)
(** * Configurations used in the examples *)

(** The blinker of [Scenario6], as the caller writes it, and its
    vertical phase. *)
Definition blinker_horizontal : list Coordinate :=
  [mkCoordinate 0 0; mkCoordinate 1 0; mkCoordinate (-1) 0].

Definition blinker_vertical : list Coordinate :=
  [mkCoordinate 0 0; mkCoordinate 0 1; mkCoordinate 0 (-1)].

(** The empty game of [Scenario0] after [2^32 - 1] generations. *)
Definition empty_game_at_last_gen : Life :=
  {| LiveCells := []; gen := Unsigned.max_unsigned; LiveCellsNextGen := [] |}.

(** A cell of the last column that [int] can index. *)
Definition east_edge : Coordinate := mkCoordinate Int.max_int 0.

(** The west neighbour of the first column, as the wrap-around gives it. *)
Definition west_edge : Coordinate := mkCoordinate Int.min_int 0.

Definition origin : Coordinate := mkCoordinate 0 0.

(** The live cells of [Scenario3] and of [Scenario4]. *)
Definition scenario3 : list Coordinate :=
  [mkCoordinate 0 0; mkCoordinate 1 1; mkCoordinate 1 0].

Definition scenario4 : list Coordinate :=
  [mkCoordinate 1 0; mkCoordinate (-1) 0; mkCoordinate 0 1].

(* ================================================================== *)
(** * Vocabulary of the further properties *)

(** Cells that are two steps away from the ends of the range of [int]:
    their neighbours have neighbours computed without overflow. *)
Definition interior (c : Coordinate) : Prop :=
  Int.min_int + 1 < X c < Int.max_int - 1 /\
  Int.min_int + 1 < Y c < Int.max_int - 1.

(** [c] is at Chebyshev distance 1 from at least one live cell. *)
Definition next_to_live (live : set) (c : Coordinate) : Prop :=
  exists l, In l live /\ chebyshev c l = 1.

(** The live cells at Chebyshev distance 1 from [c]: the neighbours of
    [c] on the unbounded grid that are alive. *)
Definition near (live : set) (c : Coordinate) : list Coordinate :=
  filter (fun l => chebyshev c l =? 1) live.

(** Three live cells in the first column that [int] can index. *)
Definition west_column : list Coordinate :=
  [mkCoordinate Int.min_int (-1); mkCoordinate Int.min_int 0;
   mkCoordinate Int.min_int 1].

(** The cell [dx] columns and [dy] rows away from [c]. *)
Definition translate (dx dy : Z) (c : Coordinate) : Coordinate :=
  mkCoordinate (X c + dx) (Y c + dy).

(** The rule set B3/S2,3 of the header comment of Source.cpp: a live
    cell with 2 or 3 live neighbours stays alive, a dead cell with 3
    live neighbours becomes alive, every other cell is dead. *)
Definition B3_S23 (live : set) (c : Coordinate) : Prop :=
  (In c live /\
     (live_neighbours live c = 2%nat \/ live_neighbours live c = 3%nat)) \/
  (~ In c live /\ live_neighbours live c = 3%nat).

(* ================================================================== *)
(** * Output: the print operators and Centre *)

Module Text.
Import String Ascii.
Local Open Scope string_scope.

(** A [std::ostream] is the string of the characters written to it so
    far. *)
Definition ostream : Type := string.

(** [out << s] for a string literal or a [std::string]. *)
Definition put (out : ostream) (s : string) : ostream := out ++ s.

(** The characters of [out << i] for an [int]: its decimal digits, after
    a minus sign when it is negative. *)
Definition decimal (i : Z) : string :=
  DecimalString.NilZero.string_of_int (Z.to_int i).

Definition put_int (out : ostream) (i : Z) : ostream := out ++ decimal i.

(** [operator<<(std::ostream&, const Coordinate&)]. *)
Definition print_Coordinate (out : ostream) (xy : Coordinate) : ostream :=
  put (put_int (put (put_int (put out "(") (X xy)) ",") (Y xy)) ")".

(** The character that the escape [\b] denotes. *)
Definition backspace : ascii := "008".

(** The three backspaces [operator<<] writes before the closing brace. *)
Definition backspaces : string :=
  String backspace (String backspace (String backspace EmptyString)).

(** [operator<<(std::ostream&, const Life&)]. *)
Definition print_Life (out : ostream) (Game : Life) : ostream :=
  if Nat.eqb (size (LiveCells Game)) 0 then put out "{}"
  else
    let out := put out "{" in
    let out :=
      fold_left (fun out it => put (print_Coordinate out it) " , ")
                (LiveCells Game) out in
    put (put out backspaces) "}".

(** [std::string(n, c)]: [n] copies of the character [c]. *)
Fixpoint replicate (n : nat) (c : ascii) : string :=
  match n with
  | O => EmptyString
  | S n' => String c (replicate n' c)
  end.

(** The difference of two [size_t], 64 bits wide. *)
Definition size_t_sub (a b : Z) : Z := (a - b) mod 18446744073709551616.

(** [Centre].  [None] is the failure of the assertion
    [length >= in.length()], which ends the program; the character 42
    is the asterisk. *)
Definition Centre (in_ : string) (length_ : Z) : option string :=
  if length_ >=? Z.of_nat (String.length in_) then
    let pad :=
      replicate
        (Z.to_nat (size_t_sub length_ (Z.of_nat (String.length in_)) / 2))
        "*" in
    Some ((pad ++ in_) ++ pad)
  else None.

(** The text of one cell, [(X,Y)], and the text of a sequence of cells,
    each one followed by the separator. *)
Definition cell (xy : Coordinate) : string :=
  "(" ++ decimal (X xy) ++ "," ++ decimal (Y xy) ++ ")".

Fixpoint cells (l : list Coordinate) : string :=
  match l with
  | [] => EmptyString
  | xy :: l' => cell xy ++ " , " ++ cells l'
  end.

End Text.

(* ================================================================== *)
(** * The order on coordinates *)

Ltac order_cases :=
  unfold Coordinate_lt, equiv, Coordinate_ltb, Coordinate_eqb in *;
  repeat match goal with
         | |- context [?a <? ?b] => destruct (Z.ltb_spec a b)
         | |- context [?a =? ?b] => destruct (Z.eqb_spec a b)
         | H : context [?a <? ?b] |- _ => destruct (Z.ltb_spec a b)
         | H : context [?a =? ?b] |- _ => destruct (Z.eqb_spec a b)
         end;
  simpl in *.

Lemma Coordinate_ext (a b : Coordinate) :
  a = b <-> X a = X b /\ Y a = Y b.
Proof.
  destruct a as [ax ay], b as [bx by_]; simpl; split.
  - intros H; injection H; auto.
  - intros [-> ->]; reflexivity.
Qed.

Lemma Coordinate_eqb_components (a b : Coordinate) :
  Coordinate_eqb a b = true <-> X a = X b /\ Y a = Y b.
Proof. order_cases; intuition (discriminate || lia). Qed.

Lemma Coordinate_eqb_eq (a b : Coordinate) :
  Coordinate_eqb a b = true <-> a = b.
Proof. rewrite Coordinate_eqb_components, Coordinate_ext; tauto. Qed.

Lemma Coordinate_ltb_lex (a b : Coordinate) :
  Coordinate_ltb a b = true <-> X a < X b \/ (X a = X b /\ Y a < Y b).
Proof. order_cases; intuition (discriminate || lia). Qed.

Lemma Coordinate_lt_irrefl (a : Coordinate) : ~ Coordinate_lt a a.
Proof. unfold Coordinate_lt; rewrite Coordinate_ltb_lex; lia. Qed.

Lemma Coordinate_lt_trans (a b c : Coordinate) : Coordinate_lt a b -> Coordinate_lt b c -> Coordinate_lt a c.
Proof. unfold Coordinate_lt; rewrite !Coordinate_ltb_lex; lia. Qed.

Lemma Coordinate_lt_asym (a b : Coordinate) : Coordinate_lt a b -> ~ Coordinate_lt b a.
Proof. unfold Coordinate_lt; rewrite !Coordinate_ltb_lex; lia. Qed.

Lemma Coordinate_lt_total (a b : Coordinate) :
  Coordinate_ltb a b = false -> Coordinate_ltb b a = false -> a = b.
Proof.
  intros H1 H2; apply Coordinate_ext.
  assert (N1 : ~ Coordinate_lt a b) by (unfold Coordinate_lt; congruence).
  assert (N2 : ~ Coordinate_lt b a) by (unfold Coordinate_lt; congruence).
  unfold Coordinate_lt in N1, N2; rewrite Coordinate_ltb_lex in N1, N2; lia.
Qed.

Lemma ltb_refl_false (a : Coordinate) : Coordinate_ltb a a = false.
Proof. destruct (Coordinate_ltb a a) eqn:E; [exfalso; exact (Coordinate_lt_irrefl a E) | reflexivity]. Qed.

Lemma equiv_eq (a b : Coordinate) : equiv a b = true <-> a = b.
Proof.
  unfold equiv; split.
  - intros H; apply andb_true_iff in H; destruct H as [H1 H2].
    apply negb_true_iff in H1, H2; now apply Coordinate_lt_total.
  - intros ->; now rewrite ltb_refl_false.
Qed.

Lemma mem_In (x : Coordinate) (s : set) : mem x s = true <-> In x s.
Proof.
  unfold mem; rewrite existsb_exists; split.
  - intros [y [Hy E]]; apply equiv_eq in E; now subst.
  - intros H; exists x; split; [exact H | now apply equiv_eq].
Qed.

Lemma mem_false (x : Coordinate) (s : set) : mem x s = false <-> ~ In x s.
Proof. rewrite <- mem_In; destruct (mem x s); intuition congruence. Qed.

(* ================================================================== *)
(** * The container *)

Lemma is_set_nil : is_set [].
Proof. reflexivity. Qed.

Lemma is_set_cons (x : Coordinate) (t : set) :
  is_set (x :: t) <-> (forall y, In y t -> Coordinate_lt x y) /\ is_set t.
Proof.
  unfold is_set; simpl; rewrite andb_true_iff, forallb_forall; reflexivity.
Qed.

Lemma is_set_NoDup (s : set) : is_set s -> NoDup s.
Proof.
  induction s as [|x t IH]; intros H; [constructor|].
  apply is_set_cons in H; destruct H as [Hx Ht]; constructor; auto.
  intros Hin; exact (Coordinate_lt_irrefl x (Hx x Hin)).
Qed.

(** Two containers with the same elements are the same sequence. *)
Lemma is_set_ext (a b : set) :
  is_set a -> is_set b -> (forall z, In z a <-> In z b) -> a = b.
Proof.
  revert b; induction a as [|x a IH]; intros [|y b] Ha Hb E.
  - reflexivity.
  - exfalso; apply (proj2 (E y)); now left.
  - exfalso; apply (proj1 (E x)); now left.
  - apply is_set_cons in Ha, Hb; destruct Ha as [Hx Ha], Hb as [Hy Hb].
    assert (x = y) as ->.
    { destruct (proj1 (E x) (or_introl eq_refl)) as [e|i]; [now symmetry|].
      destruct (proj2 (E y) (or_introl eq_refl)) as [e|j]; [exact e|].
      exfalso; exact (Coordinate_lt_asym _ _ (Hy _ i) (Hx _ j)). }
    f_equal; apply IH; auto; intros z; split; intros Hz.
    + destruct (proj1 (E z) (or_intror Hz)) as [e|i]; [|exact i].
      subst z; exfalso; exact (Coordinate_lt_irrefl _ (Hx _ Hz)).
    + destruct (proj2 (E z) (or_intror Hz)) as [e|i]; [|exact i].
      subst z; exfalso; exact (Coordinate_lt_irrefl _ (Hy _ Hz)).
Qed.

Lemma is_set_filter (f : Coordinate -> bool) (s : set) :
  is_set s -> is_set (filter f s).
Proof.
  induction s as [|x t IH]; intros H; [exact H|].
  apply is_set_cons in H; destruct H as [Hx Ht]; simpl.
  destruct (f x); auto.
  apply is_set_cons; split; auto.
  intros y Hy; apply filter_In in Hy; now apply Hx.
Qed.

Lemma In_insert (z x : Coordinate) (s : set) :
  In z (insert x s) <-> z = x \/ In z s.
Proof.
  induction s as [|y t IH]; simpl; [intuition|].
  destruct (Coordinate_ltb x y) eqn:E1; simpl; [intuition|].
  destruct (Coordinate_ltb y x) eqn:E2; simpl.
  - rewrite IH; intuition.
  - rewrite (Coordinate_lt_total _ _ E1 E2); intuition.
Qed.

Lemma is_set_insert (x : Coordinate) (s : set) :
  is_set s -> is_set (insert x s).
Proof.
  induction s as [|y t IH]; intros H; simpl.
  - apply is_set_cons; split; [intros ? []|exact is_set_nil].
  - destruct (Coordinate_ltb x y) eqn:E1.
    + apply is_set_cons; split; [|exact H].
      apply is_set_cons in H; destruct H as [Hy _].
      intros z [<-|Hz]; [exact E1|exact (Coordinate_lt_trans _ _ _ E1 (Hy _ Hz))].
    + destruct (Coordinate_ltb y x) eqn:E2; [|exact H].
      apply is_set_cons in H; destruct H as [Hy Ht].
      apply is_set_cons; split; [|now apply IH].
      intros z Hz; apply In_insert in Hz; destruct Hz as [->|Hz]; auto.
Qed.

Lemma In_insert_range (z : Coordinate) (xs : list Coordinate) (s : set) :
  In z (insert_range xs s) <-> In z xs \/ In z s.
Proof.
  unfold insert_range; revert s; induction xs as [|x xs IH]; intros s; simpl.
  - intuition.
  - rewrite IH, In_insert; intuition.
Qed.

Lemma is_set_insert_range (xs : list Coordinate) (s : set) :
  is_set s -> is_set (insert_range xs s).
Proof.
  unfold insert_range; revert s; induction xs as [|x xs IH]; intros s H; simpl.
  - exact H.
  - apply IH; now apply is_set_insert.
Qed.

Lemma is_set_set_of_list (xs : list Coordinate) : is_set (set_of_list xs).
Proof. apply is_set_insert_range, is_set_nil. Qed.

Lemma In_set_of_list (z : Coordinate) (xs : list Coordinate) :
  In z (set_of_list xs) <-> In z xs.
Proof. unfold set_of_list; rewrite In_insert_range; simpl; tauto. Qed.

(** Feeding an ascending sequence to an inserter on an empty container
    rebuilds that sequence. *)
Lemma inserter_nil (out : list Coordinate) :
  is_set out -> inserter [] out = out.
Proof.
  intros H; apply is_set_ext; auto.
  - apply is_set_insert_range, is_set_nil.
  - intros z; unfold inserter; rewrite In_insert_range; simpl; tauto.
Qed.

Lemma set_of_list_length (xs : list Coordinate) :
  NoDup xs -> length (set_of_list xs) = length xs.
Proof.
  intros H; apply Permutation_length, NoDup_Permutation; auto.
  - apply is_set_NoDup, is_set_set_of_list.
  - intros z; apply In_set_of_list.
Qed.

Lemma mem_cons_above (z y : Coordinate) (b : set) :
  Coordinate_lt y z -> mem z (y :: b) = mem z b.
Proof.
  intros H; unfold mem; simpl.
  destruct (equiv z y) eqn:E; [|reflexivity].
  apply equiv_eq in E; subst; exfalso; exact (Coordinate_lt_irrefl _ H).
Qed.

Lemma mem_below_all (x : Coordinate) (b : set) :
  (forall y, In y b -> Coordinate_lt x y) -> mem x b = false.
Proof.
  intros H; apply mem_false; intros Hin; exact (Coordinate_lt_irrefl _ (H _ Hin)).
Qed.

Lemma filter_none (f : Coordinate -> bool) (l : list Coordinate) :
  (forall z, f z = false) -> filter f l = [].
Proof.
  intros H; induction l as [|x l IH]; simpl; [reflexivity|].
  now rewrite H.
Qed.

Lemma filter_all (f : Coordinate -> bool) (l : list Coordinate) :
  (forall z, f z = true) -> filter f l = l.
Proof.
  intros H; induction l as [|x l IH]; simpl; [reflexivity|].
  now rewrite H, IH.
Qed.

(** [std::set_intersection] keeps the elements of the first sequence
    that occur in the second. *)
Lemma set_intersection_filter (a b : set) :
  is_set a -> is_set b ->
  set_intersection a b = filter (fun z => mem z b) a.
Proof.
  revert b; induction a as [|x a IHa]; intros b Ha; [reflexivity|].
  pose proof Ha as Ha0.
  apply is_set_cons in Ha; destruct Ha as [Hx Ha].
  induction b as [|y b IHb]; intros Hb.
  - symmetry; apply filter_none; reflexivity.
  - pose proof Hb as Hb0.
    apply is_set_cons in Hb; destruct Hb as [Hy Hb].
    change (set_intersection (x :: a) (y :: b))
      with (if Coordinate_ltb x y then set_intersection a (y :: b)
            else if Coordinate_ltb y x then set_intersection (x :: a) b
            else x :: set_intersection a b).
    destruct (Coordinate_ltb x y) eqn:E1.
    + rewrite (IHa _ Ha Hb0); cbn [filter].
      rewrite (mem_below_all x (y :: b)); [reflexivity|].
      intros z [<-|Hz]; [exact E1|exact (Coordinate_lt_trans _ _ _ E1 (Hy _ Hz))].
    + destruct (Coordinate_ltb y x) eqn:E2.
      * rewrite (IHb Hb); apply filter_ext_in.
        intros z Hz; symmetry; apply mem_cons_above.
        destruct Hz as [<-|Hz]; [exact E2|exact (Coordinate_lt_trans _ _ _ E2 (Hx _ Hz))].
      * pose proof (Coordinate_lt_total _ _ E1 E2) as e; subst y.
        rewrite (IHa _ Ha Hb).
        cbn [filter].
        replace (mem x (x :: b)) with true
          by (symmetry; apply mem_In; now left).
        f_equal; apply filter_ext_in.
        intros z Hz; symmetry; apply mem_cons_above; auto.
Qed.

(** [std::set_difference] keeps the elements of the first sequence that
    do not occur in the second. *)
Lemma set_difference_filter (a b : set) :
  is_set a -> is_set b ->
  set_difference a b = filter (fun z => negb (mem z b)) a.
Proof.
  revert b; induction a as [|x a IHa]; intros b Ha; [reflexivity|].
  pose proof Ha as Ha0.
  apply is_set_cons in Ha; destruct Ha as [Hx Ha].
  induction b as [|y b IHb]; intros Hb.
  - symmetry; apply filter_all; reflexivity.
  - pose proof Hb as Hb0.
    apply is_set_cons in Hb; destruct Hb as [Hy Hb].
    change (set_difference (x :: a) (y :: b))
      with (if Coordinate_ltb x y then x :: set_difference a (y :: b)
            else if Coordinate_ltb y x then set_difference (x :: a) b
            else set_difference a b).
    destruct (Coordinate_ltb x y) eqn:E1.
    + rewrite (IHa _ Ha Hb0); cbn [filter].
      rewrite (mem_below_all x (y :: b)); [reflexivity|].
      intros z [<-|Hz]; [exact E1|exact (Coordinate_lt_trans _ _ _ E1 (Hy _ Hz))].
    + destruct (Coordinate_ltb y x) eqn:E2.
      * rewrite (IHb Hb); apply filter_ext_in.
        intros z Hz; f_equal; symmetry; apply mem_cons_above.
        destruct Hz as [<-|Hz]; [exact E2|exact (Coordinate_lt_trans _ _ _ E2 (Hx _ Hz))].
      * pose proof (Coordinate_lt_total _ _ E1 E2) as e; subst y.
        rewrite (IHa _ Ha Hb).
        cbn [filter].
        replace (mem x (x :: b)) with true
          by (symmetry; apply mem_In; now left).
        cbn [negb]; apply filter_ext_in.
        intros z Hz; f_equal; symmetry; apply mem_cons_above; auto.
Qed.

(* ================================================================== *)
(** * Neighbours *)

Lemma wrap_sub1_neq (t : Z) : Int.sub t 1 <> t.
Proof. unfold Int.sub, Int.wrap, Int.modulus, Int.min_int; Z.div_mod_to_equations; lia. Qed.

Lemma wrap_add1_neq (t : Z) : Int.add t 1 <> t.
Proof. unfold Int.add, Int.wrap, Int.modulus, Int.min_int; Z.div_mod_to_equations; lia. Qed.

Lemma wrap_sub1_add1_neq (t : Z) : Int.sub t 1 <> Int.add t 1.
Proof. unfold Int.sub, Int.add, Int.wrap, Int.modulus, Int.min_int; Z.div_mod_to_equations; lia. Qed.

Lemma wrap_sub1_exact (t : Z) : Int.min_int < t <= Int.max_int -> Int.sub t 1 = t - 1.
Proof. unfold Int.sub, Int.wrap, Int.modulus, Int.min_int, Int.max_int; Z.div_mod_to_equations; lia. Qed.

Lemma wrap_add1_exact (t : Z) : Int.min_int <= t < Int.max_int -> Int.add t 1 = t + 1.
Proof. unfold Int.add, Int.wrap, Int.modulus, Int.min_int, Int.max_int; Z.div_mod_to_equations; lia. Qed.

(** Read an equation between two coordinates component by component,
    leaving the machine arithmetic folded. *)
Ltac split_coordinates K :=
  let KX := fresh "KX" in
  let KY := fresh "KY" in
  pose proof (f_equal X K) as KX; pose proof (f_equal Y K) as KY;
  cbn [X Y] in KX, KY; clear K.

(** The eight coordinates that [Neighbours] puts in its result. *)
Lemma In_Neighbours (c z : Coordinate) :
  In z (Neighbours c) <->
  In z [ mkCoordinate (Int.sub (X c) 1) (Int.sub (Y c) 1);
         mkCoordinate (Int.sub (X c) 1) (Y c);
         mkCoordinate (Int.sub (X c) 1) (Int.add (Y c) 1);
         mkCoordinate (X c) (Int.sub (Y c) 1);
         mkCoordinate (X c) (Int.add (Y c) 1);
         mkCoordinate (Int.add (X c) 1) (Int.sub (Y c) 1);
         mkCoordinate (Int.add (X c) 1) (Y c);
         mkCoordinate (Int.add (X c) 1) (Int.add (Y c) 1) ].
Proof. unfold Neighbours; apply In_set_of_list. Qed.

Lemma is_set_Neighbours (c : Coordinate) : is_set (Neighbours c).
Proof. apply is_set_set_of_list. Qed.

Lemma Neighbours_size (c : Coordinate) : size (Neighbours c) = 8%nat.
Proof.
  unfold size, Neighbours; rewrite set_of_list_length; [reflexivity|].
  pose proof (wrap_sub1_neq (X c)); pose proof (wrap_add1_neq (X c)).
  pose proof (wrap_sub1_add1_neq (X c)).
  pose proof (wrap_sub1_neq (Y c)); pose proof (wrap_add1_neq (Y c)).
  pose proof (wrap_sub1_add1_neq (Y c)).
  repeat constructor; cbn [In]; intros K;
    repeat (destruct K as [K|K]; [split_coordinates K; congruence|]);
    exact K.
Qed.

Lemma Neighbours_not_self (c : Coordinate) : ~ In c (Neighbours c).
Proof.
  rewrite In_Neighbours.
  pose proof (wrap_sub1_neq (X c)); pose proof (wrap_add1_neq (X c)).
  pose proof (wrap_sub1_neq (Y c)); pose proof (wrap_add1_neq (Y c)).
  destruct c as [x y]; cbn [X Y In] in *; intros K;
    repeat (destruct K as [K|K]; [split_coordinates K; congruence|]);
    exact K.
Qed.

(** Away from the ends of the range of [int], the result is the eight
    cells around [c], in this order. *)
Lemma Neighbours_no_overflow (c : Coordinate) :
  no_overflow c ->
  Neighbours c =
  [ mkCoordinate (X c - 1) (Y c - 1); mkCoordinate (X c - 1) (Y c);
    mkCoordinate (X c - 1) (Y c + 1); mkCoordinate (X c) (Y c - 1);
    mkCoordinate (X c) (Y c + 1); mkCoordinate (X c + 1) (Y c - 1);
    mkCoordinate (X c + 1) (Y c); mkCoordinate (X c + 1) (Y c + 1) ].
Proof.
  intros [Hx Hy]; unfold Neighbours.
  rewrite (wrap_sub1_exact (X c)), (wrap_sub1_exact (Y c)) by lia.
  rewrite (wrap_add1_exact (X c)), (wrap_add1_exact (Y c)) by lia.
  apply (inserter_nil _).
  unfold is_set; cbn [sortedb forallb].
  repeat match goal with
         | |- context [Coordinate_ltb ?a ?b] =>
             replace (Coordinate_ltb a b) with true
               by (symmetry; apply Coordinate_ltb_lex; cbn [X Y]; lia)
         end.
  reflexivity.
Qed.

(* ================================================================== *)
(** * The loops of the rule functions *)

Lemma In_insert_if (p : Coordinate -> bool) (l : list Coordinate) (s : set) (c : Coordinate) :
  In c (insert_if p l s) <-> In c s \/ (In c l /\ p c = true).
Proof.
  unfold insert_if; revert s; induction l as [|x l IH]; intros s; simpl.
  - intuition.
  - rewrite IH; destruct (p x) eqn:E.
    + rewrite In_insert; intuition (subst; auto); congruence.
    + intuition (subst; auto); congruence.
Qed.

Lemma is_set_insert_if (p : Coordinate -> bool) (l : list Coordinate) (s : set) :
  is_set s -> is_set (insert_if p l s).
Proof.
  unfold insert_if; revert s; induction l as [|x l IH]; intros s H; simpl.
  - exact H.
  - apply IH; destruct (p x); auto using is_set_insert.
Qed.

Lemma In_collect_neighbours (live : list Coordinate) (dn : set) (z : Coordinate) :
  In z (collect_neighbours Neighbours live dn) <->
  In z dn \/ exists l, In l live /\ In z (Neighbours l).
Proof.
  unfold collect_neighbours; revert dn; induction live as [|x live IH]; intros dn; simpl.
  - split; [auto|intros [H|[l [[] _]]]; exact H].
  - rewrite IH, In_insert_range; split.
    + intros [[H|H]|[l [Hl H]]]; eauto.
    + intros [H|[l [[<-|Hl] H]]]; eauto.
Qed.

Lemma is_set_collect_neighbours (live : list Coordinate) (dn : set) :
  is_set dn -> is_set (collect_neighbours Neighbours live dn).
Proof.
  unfold collect_neighbours; revert dn; induction live as [|x live IH]; intros dn H; simpl.
  - exact H.
  - apply IH, is_set_insert_range, H.
Qed.

(** The number the rule functions compare with 2 and 3. *)
Lemma count_size (live : set) (it : Coordinate) :
  is_set live ->
  size (inserter [] (set_intersection (Neighbours it) live)) = live_neighbours live it.
Proof.
  intros H; unfold live_neighbours, size.
  rewrite set_intersection_filter by auto using is_set_Neighbours.
  rewrite inserter_nil by auto using is_set_filter, is_set_Neighbours.
  reflexivity.
Qed.

Lemma Birth_loop (live : set) (dead : list Coordinate) (next : set) :
  is_set live ->
  fold_left (Birth_body live) dead ([], next) =
  ([], insert_if (fun it => Nat.eqb (live_neighbours live it) 3) dead next).
Proof.
  intros H; unfold insert_if; revert next.
  induction dead as [|it dead IH]; intros next; simpl; [reflexivity|].
  rewrite count_size by exact H; apply IH.
Qed.

Lemma Survival_loop (live : set) (cells : list Coordinate) (next : set) :
  is_set live ->
  fold_left (Survival_body live) cells ([], next) =
  ([], insert_if (fun it => Nat.eqb (live_neighbours live it) 2
                            || Nat.eqb (live_neighbours live it) 3) cells next).
Proof.
  intros H; unfold insert_if; revert next.
  induction cells as [|it cells IH]; intros next; simpl; [reflexivity|].
  rewrite count_size by exact H; apply IH.
Qed.

(** [AllDeadNeighbours]: the neighbours of live cells that are dead. *)
Lemma In_AllDeadNeighbours (g : Life) (c : Coordinate) :
  is_set (LiveCells g) ->
  In c (AllDeadNeighbours g) <->
  adjacent_to_live (LiveCells g) c /\ ~ In c (LiveCells g).
Proof.
  intros H; unfold AllDeadNeighbours, adjacent_to_live.
  assert (Hdn : is_set (collect_neighbours Neighbours (LiveCells g) []))
    by apply is_set_collect_neighbours, is_set_nil.
  rewrite set_difference_filter by auto.
  rewrite inserter_nil by auto using is_set_filter.
  rewrite filter_In, In_collect_neighbours, negb_true_iff, mem_false; simpl.
  tauto.
Qed.

Lemma is_set_AllDeadNeighbours (g : Life) : is_set (AllDeadNeighbours g).
Proof. apply is_set_insert_range, is_set_nil. Qed.

Lemma LiveCells_Birth (g : Life) : LiveCells (Birth g) = LiveCells g.
Proof. reflexivity. Qed.

Lemma LiveCells_SurvivalAndDeath (g : Life) : LiveCells (SurvivalAndDeath g) = LiveCells g.
Proof. reflexivity. Qed.

Lemma In_Birth (g : Life) (c : Coordinate) :
  is_set (LiveCells g) ->
  In c (LiveCellsNextGen (Birth g)) <->
  In c (LiveCellsNextGen g) \/ born (LiveCells g) c.
Proof.
  intros H; unfold Birth, born; cbn [LiveCellsNextGen].
  rewrite Birth_loop by exact H; cbn [snd].
  rewrite In_insert_if, In_AllDeadNeighbours, Nat.eqb_eq by exact H.
  tauto.
Qed.

Lemma In_SurvivalAndDeath (g : Life) (c : Coordinate) :
  is_set (LiveCells g) ->
  In c (LiveCellsNextGen (SurvivalAndDeath g)) <->
  In c (LiveCellsNextGen g) \/ survives (LiveCells g) c.
Proof.
  intros H; unfold SurvivalAndDeath, survives; cbn [LiveCellsNextGen].
  rewrite Survival_loop by exact H; cbn [snd].
  rewrite In_insert_if, orb_true_iff, !Nat.eqb_eq.
  tauto.
Qed.

Lemma is_set_Birth (g : Life) :
  is_set (LiveCells g) -> is_set (LiveCellsNextGen g) ->
  is_set (LiveCellsNextGen (Birth g)).
Proof.
  intros H Hn; unfold Birth; cbn [LiveCellsNextGen].
  rewrite Birth_loop by exact H; cbn [snd]; now apply is_set_insert_if.
Qed.

Lemma is_set_SurvivalAndDeath (g : Life) :
  is_set (LiveCells g) -> is_set (LiveCellsNextGen g) ->
  is_set (LiveCellsNextGen (SurvivalAndDeath g)).
Proof.
  intros H Hn; unfold SurvivalAndDeath; cbn [LiveCellsNextGen].
  rewrite Survival_loop by exact H; cbn [snd]; now apply is_set_insert_if.
Qed.

Lemma born_not_survives (live : set) (c : Coordinate) :
  born live c -> ~ survives live c.
Proof. intros [Hd _] [Hl _]; exact (Hd Hl). Qed.

(* ================================================================== *)
(** * The generation counter *)

Lemma gen_AdvanceOne (g : Life) :
  gen (AdvanceOne g) = (gen g + 1) mod 4294967296.
Proof. reflexivity. Qed.

Lemma LiveCellsNextGen_AdvanceOne (g : Life) : LiveCellsNextGen (AdvanceOne g) = [].
Proof. reflexivity. Qed.

Lemma is_unsigned_wrap (z : Z) : is_unsigned (z mod 4294967296).
Proof.
  unfold is_unsigned, Unsigned.max_unsigned.
  pose proof (Z.mod_pos_bound z 4294967296); lia.
Qed.

Lemma gen_AdvanceOne_below_max (g : Life) :
  is_unsigned (gen g) -> gen g < Unsigned.max_unsigned ->
  gen (AdvanceOne g) = gen g + 1.
Proof.
  unfold is_unsigned, Unsigned.max_unsigned; intros H1 H2.
  rewrite gen_AdvanceOne; apply Z.mod_small; lia.
Qed.

Lemma AdvanceMany_0 (g : Life) : AdvanceMany 0 g = g.
Proof. reflexivity. Qed.

Lemma AdvanceMany_succ (k : N) (g : Life) :
  AdvanceMany (N.succ k) g = AdvanceOne (AdvanceMany k g).
Proof. unfold AdvanceMany; apply N.iter_succ. Qed.

Lemma AdvanceMany_succ_r (k : N) (g : Life) :
  AdvanceMany (N.succ k) g = AdvanceMany k (AdvanceOne g).
Proof. unfold AdvanceMany; apply N.iter_succ_r. Qed.

Lemma gen_AdvanceMany (k : N) (g : Life) :
  is_unsigned (gen g) ->
  gen (AdvanceMany k g) = (gen g + Z.of_N k) mod 4294967296.
Proof.
  unfold is_unsigned, Unsigned.max_unsigned; intros H.
  induction k as [|k IH] using N.peano_ind.
  - rewrite AdvanceMany_0, Z.add_0_r; symmetry; apply Z.mod_small; lia.
  - rewrite AdvanceMany_succ, gen_AdvanceOne, IH, N2Z.inj_succ.
    rewrite Zplus_mod_idemp_l; f_equal; lia.
Qed.

(* ================================================================== *)
(** * One generation *)

Lemma In_AdvanceOne (g : Life) (c : Coordinate) :
  wf g ->
  In c (LiveCells (AdvanceOne g)) <->
  born (LiveCells g) c \/ survives (LiveCells g) c.
Proof.
  intros [Hs [_ He]]; unfold AdvanceOne; cbn [LiveCells].
  rewrite In_SurvivalAndDeath by exact Hs.
  rewrite LiveCells_Birth, In_Birth, He by exact Hs; simpl; tauto.
Qed.

Lemma is_set_AdvanceOne (g : Life) :
  wf g -> is_set (LiveCells (AdvanceOne g)).
Proof.
  intros [Hs [_ He]]; unfold AdvanceOne; cbn [LiveCells].
  apply is_set_SurvivalAndDeath; [exact Hs|].
  apply is_set_Birth; [exact Hs|rewrite He; exact is_set_nil].
Qed.

Lemma In_birth_result (live : set) (c : Coordinate) :
  is_set live -> In c (birth_result live) <-> born live c.
Proof.
  intros H; unfold birth_result.
  rewrite In_Birth by exact H; simpl; tauto.
Qed.

Lemma In_survival_result (live : set) (c : Coordinate) :
  is_set live -> In c (survival_result live) <-> survives live c.
Proof.
  intros H; unfold survival_result.
  rewrite In_SurvivalAndDeath by exact H; simpl; tauto.
Qed.

(** With an empty scratch set, [AdvanceOne] only looks at the live
    set. *)
Lemma AdvanceOne_LiveCells_only (g : Life) :
  LiveCellsNextGen g = [] ->
  LiveCells (AdvanceOne g) = LiveCells (AdvanceOne (newLife (LiveCells g))).
Proof.
  intros He; unfold AdvanceOne, SurvivalAndDeath, Birth, AllDeadNeighbours, newLife.
  cbn [LiveCells LiveCellsNextGen gen]; now rewrite He.
Qed.

(* ================================================================== *)
(** * The invariant of the class *)

Lemma wf_newLife (s : set) : is_set s -> wf (newLife s).
Proof.
  intros H; repeat split; auto; simpl; unfold Unsigned.max_unsigned; lia.
Qed.

Lemma wf_newLife_of_list (cells : list Coordinate) : wf (newLife_of_list cells).
Proof. apply wf_newLife, is_set_set_of_list. Qed.

Lemma wf_AdvanceOne (g : Life) : wf g -> wf (AdvanceOne g).
Proof.
  intros H; split; [now apply is_set_AdvanceOne|split].
  - rewrite gen_AdvanceOne; apply is_unsigned_wrap.
  - reflexivity.
Qed.

Lemma wf_AdvanceMany (k : N) (g : Life) : wf g -> wf (AdvanceMany k g).
Proof.
  intros H; induction k as [|k IH] using N.peano_ind.
  - exact H.
  - rewrite AdvanceMany_succ; now apply wf_AdvanceOne.
Qed.

Lemma wf_AdvanceTo_loop (fuel : nat) (n : Z) (g g' : Life) :
  wf g -> AdvanceTo_loop fuel n g = Some g' -> wf g'.
Proof.
  revert g; induction fuel as [|fuel IH]; intros g H; simpl;
    destruct (gen g <? n); intros E; try discriminate.
  - injection E as <-; exact H.
  - exact (IH _ (wf_AdvanceOne _ H) E).
  - injection E as <-; exact H.
Qed.

Lemma reachable_wf (g : Life) : reachable g -> wf g.
Proof.
  induction 1 as [cells|g _ IH|g n fuel g' _ IH _ E].
  - apply wf_newLife_of_list.
  - now apply wf_AdvanceOne.
  - exact (wf_AdvanceTo_loop _ _ _ _ IH E).
Qed.

Lemma reachable_AdvanceMany (k : N) (g : Life) :
  reachable g -> reachable (AdvanceMany k g).
Proof.
  intros H; induction k as [|k IH] using N.peano_ind.
  - exact H.
  - rewrite AdvanceMany_succ; apply reach_one, IH.
Qed.

(* ================================================================== *)
(** * The loop of AdvanceTo *)

Lemma AdvanceTo_loop_done (fuel : nat) (n : Z) (g : Life) :
  n <= gen g -> AdvanceTo_loop fuel n g = Some g.
Proof.
  intros H; destruct fuel; simpl;
    destruct (Z.ltb_spec (gen g) n); try lia; reflexivity.
Qed.

Lemma AdvanceTo_loop_enough (fuel : nat) (n : Z) (g : Life) :
  is_unsigned (gen g) -> is_unsigned n ->
  (Z.to_nat (n - gen g) <= fuel)%nat ->
  AdvanceTo_loop fuel n g = Some (AdvanceMany (Z.to_N (n - gen g)) g).
Proof.
  unfold is_unsigned, Unsigned.max_unsigned; intros Hg Hn; revert g Hg.
  induction fuel as [|fuel IH]; intros g Hg Hf.
  - rewrite AdvanceTo_loop_done by lia.
    replace (Z.to_N (n - gen g)) with 0%N by lia; reflexivity.
  - destruct (Z.ltb_spec (gen g) n) as [Hlt|Hge].
    + simpl; destruct (Z.ltb_spec (gen g) n) as [_|Hge]; [|lia].
      assert (E : gen (AdvanceOne g) = gen g + 1).
      { apply gen_AdvanceOne_below_max;
          unfold is_unsigned, Unsigned.max_unsigned; lia. }
      rewrite IH by (rewrite ?E; lia).
      rewrite E.
      replace (Z.to_N (n - gen g)) with (N.succ (Z.to_N (n - (gen g + 1)))) by lia.
      now rewrite AdvanceMany_succ_r.
    + rewrite AdvanceTo_loop_done by lia.
      replace (Z.to_N (n - gen g)) with 0%N by lia; reflexivity.
Qed.

(* ================================================================== *)
(** * The empty game *)

Lemma AdvanceOne_empty (z : Z) :
  AdvanceOne (mkLife [] z []) = mkLife [] (Unsigned.add z 1) [].
Proof. reflexivity. Qed.

Lemma AdvanceMany_empty (k : N) :
  AdvanceMany k (newLife_of_list []) = mkLife [] (Z.of_N k mod 4294967296) [].
Proof.
  induction k as [|k IH] using N.peano_ind.
  - reflexivity.
  - rewrite AdvanceMany_succ, IH, AdvanceOne_empty.
    unfold Unsigned.add, Unsigned.wrap, Unsigned.modulus.
    rewrite Zplus_mod_idemp_l, N2Z.inj_succ; reflexivity.
Qed.

Lemma reachable_empty_game_at_last_gen : reachable empty_game_at_last_gen.
Proof.
  assert (E : empty_game_at_last_gen = AdvanceMany 4294967295 (newLife_of_list [])).
  { rewrite AdvanceMany_empty; reflexivity. }
  rewrite E; apply reachable_AdvanceMany, reach_new.
Qed.

(* ================================================================== *)
(** * The scenarios of Source.cpp *)

(** [Scenario1]: the origin has one live neighbour and dies. *)
Example scenario1_origin_dies :
  LiveCells (AdvanceOne (newLife_of_list [mkCoordinate 0 0; mkCoordinate 1 1])) = [].
Proof. reflexivity. Qed.

(** [Scenario2]: the origin has four live neighbours and dies. *)
Example scenario2_origin_dies :
  mem origin
    (LiveCells (AdvanceOne (newLife_of_list
       [mkCoordinate 0 0; mkCoordinate 1 1; mkCoordinate 1 (-1);
        mkCoordinate (-1) 1; mkCoordinate (-1) (-1)]))) = false.
Proof. reflexivity. Qed.

(** [Scenario3]: the origin has two live neighbours and stays. *)
Example scenario3_origin_stays :
  mem origin (LiveCells (AdvanceOne (newLife_of_list scenario3))) = true.
Proof. reflexivity. Qed.

(** [Scenario4]: the origin is dead, has three live neighbours and is
    born. *)
Example scenario4_origin_born :
  mem origin (LiveCells (newLife_of_list scenario4)) = false /\
  mem origin (LiveCells (AdvanceOne (newLife_of_list scenario4))) = true.
Proof. split; reflexivity. Qed.

(* ================================================================== *)
(** * Properties of the specification *)

Ltac solve_wf :=
  unfold wf, is_set, is_unsigned, Unsigned.max_unsigned;
  repeat split; try reflexivity; simpl; lia.

Ltac solve_In := vm_compute; repeat (first [left; reflexivity | right]).

Ltac offset dx dy :=
  solve [exists dx, dy; split; [lia|split; [lia|split; [lia|f_equal; lia]]]].

(** C6. [Coordinate::operator==] holds exactly when both components
    match, and [Coordinate::operator<] is the strict total lexicographic
    order with [X] first and [Y] second: it is as the lexicographic
    formula says, exactly one of [a < b], [b < a], [a == b] holds, it is
    irreflexive and it is transitive. *)
Theorem Coordinate_order (a b : Coordinate) :
  (Coordinate_eqb a b = true <-> X a = X b /\ Y a = Y b) /\
  (Coordinate_ltb a b = true <-> X a < X b \/ (X a = X b /\ Y a < Y b)) /\
  ( (Coordinate_ltb a b = true /\ Coordinate_ltb b a = false /\ Coordinate_eqb a b = false)
    \/ (Coordinate_ltb a b = false /\ Coordinate_ltb b a = true /\ Coordinate_eqb a b = false)
    \/ (Coordinate_ltb a b = false /\ Coordinate_ltb b a = false /\ Coordinate_eqb a b = true) ) /\
  Coordinate_ltb a a = false /\
  (forall c, Coordinate_ltb a b = true -> Coordinate_ltb b c = true ->
             Coordinate_ltb a c = true).
Proof.
  split; [apply Coordinate_eqb_components|].
  split; [apply Coordinate_ltb_lex|].
  split; [|split; [apply ltb_refl_false|intros c; apply Coordinate_lt_trans]].
  destruct (Coordinate_ltb a b) eqn:Eab, (Coordinate_ltb b a) eqn:Eba,
    (Coordinate_eqb a b) eqn:Eq; auto 10; exfalso.
  - exact (Coordinate_lt_asym _ _ Eab Eba).
  - exact (Coordinate_lt_asym _ _ Eab Eba).
  - apply Coordinate_eqb_eq in Eq; subst b.
    rewrite ltb_refl_false in Eab; discriminate.
  - apply Coordinate_eqb_eq in Eq; subst b.
    rewrite ltb_refl_false in Eba; discriminate.
  - pose proof (Coordinate_lt_total _ _ Eab Eba) as E; apply Coordinate_eqb_eq in E; congruence.
Qed.

Lemma Coordinate_order_witness :
  Coordinate_ltb origin east_edge = true /\
  Coordinate_ltb east_edge (mkCoordinate Int.max_int 1) = true /\
  Coordinate_ltb origin (mkCoordinate Int.max_int 1) = true.
Proof.
  assert (H1 : Coordinate_ltb origin east_edge = true) by reflexivity.
  assert (H2 : Coordinate_ltb east_edge (mkCoordinate Int.max_int 1) = true) by reflexivity.
  split; [exact H1|split; [exact H2|]].
  exact (proj2 (proj2 (proj2 (proj2 (Coordinate_order origin east_edge)))) _ H1 H2).
Defined.

(** Whatever the arithmetic does on overflow, the cell [(INT_MAX, 0)]
    cannot have eight neighbours: only five pairs of [int] are at
    Chebyshev distance 1 from it. *)
Lemma east_edge_at_most_five (l : list Coordinate) :
  NoDup l ->
  (forall n, In n l -> representable n /\ chebyshev east_edge n = 1) ->
  (length l <= 5)%nat.
Proof.
  intros Hd H.
  apply (NoDup_incl_length
           (l' := [mkCoordinate 2147483646 (-1); mkCoordinate 2147483646 0;
                   mkCoordinate 2147483646 1; mkCoordinate 2147483647 (-1);
                   mkCoordinate 2147483647 1]) Hd).
  intros n Hn; destruct (H n Hn) as [[Rx Ry] D].
  destruct n as [nx ny].
  unfold chebyshev, east_edge, Int.max_int, Int.min_int in *; cbn [X Y] in *.
  assert (Ex : nx = 2147483646 \/ nx = 2147483647) by lia.
  assert (Ey : ny = -1 \/ ny = 0 \/ ny = 1) by lia.
  destruct Ex as [-> | ->], Ey as [-> | [-> | ->]];
    try (cbn [In]; repeat (first [left; reflexivity | right])); lia.
Qed.

(** C4, as stated, fails at the edge of the range of [int]: the cell
    [(INT_MAX, 0)] gets the neighbour [(INT_MIN, 0)], which is
    [2^32 - 1] columns away; and no other outcome of the overflow could
    give it eight neighbours at distance 1. *)
Lemma Neighbours_east_edge_far :
  In west_edge (Neighbours east_edge) /\
  chebyshev east_edge west_edge = 4294967295 /\
  ~ (forall n, In n (Neighbours east_edge) -> chebyshev east_edge n = 1) /\
  ~ (exists l, length l = 8%nat /\ NoDup l /\
               forall n, In n l -> representable n /\ chebyshev east_edge n = 1).
Proof.
  assert (H : In west_edge (Neighbours east_edge)) by solve_In.
  split; [exact H|split; [reflexivity|split]].
  - intros K; specialize (K _ H); vm_compute in K; discriminate.
  - intros [l [L [Hd Hl]]].
    pose proof (east_edge_at_most_five l Hd Hl); lia.
Qed.

(** C4, amended. For every coordinate [c] whose components are strictly
    between [INT_MIN] and [INT_MAX], [Neighbours c] holds exactly 8
    distinct coordinates, none equal to [c]; they are the cells at
    Chebyshev distance exactly 1 from [c], that is the cells
    [(X + dX, Y + dY)] with [dX], [dY] in [{-1, 0, 1}] and not both 0. *)
Theorem Neighbours_eight_around (c : Coordinate) :
  no_overflow c ->
  size (Neighbours c) = 8%nat /\
  NoDup (Neighbours c) /\
  ~ In c (Neighbours c) /\
  (forall n, In n (Neighbours c) <-> chebyshev c n = 1) /\
  (forall n, In n (Neighbours c) <->
     exists dx dy, -1 <= dx <= 1 /\ -1 <= dy <= 1 /\ (dx <> 0 \/ dy <> 0) /\
                   n = mkCoordinate (X c + dx) (Y c + dy)).
Proof.
  intros Hc.
  split; [apply Neighbours_size|].
  split; [apply is_set_NoDup, is_set_Neighbours|].
  split; [apply Neighbours_not_self|].
  rewrite (Neighbours_no_overflow c Hc).
  assert (D : forall n, chebyshev c n = 1 ->
     (X n = X c - 1 \/ X n = X c \/ X n = X c + 1) /\
     (Y n = Y c - 1 \/ Y n = Y c \/ Y n = Y c + 1) /\
     (X n <> X c \/ Y n <> Y c)) by (unfold chebyshev; intros n; lia).
  split; intros n; split.
  - cbn [In]; intros K;
      repeat (destruct K as [K|K]; [subst n; unfold chebyshev; cbn [X Y]; lia|]);
      contradiction.
  - intros K; destruct (D n K) as [Hx [Hy Hn]].
    destruct n as [nx ny]; cbn [X Y] in *.
    destruct Hx as [-> | [-> | ->]], Hy as [-> | [-> | ->]];
      try (cbn [In]; repeat (first [left; reflexivity | right])); lia.
  - cbn [In]; intros K;
      repeat (destruct K as [K|K];
              [subst n;
               first [ offset (-1) (-1) | offset (-1) 0 | offset (-1) 1
                     | offset 0 (-1) | offset 0 1
                     | offset 1 (-1) | offset 1 0 | offset 1 1 ]|]);
      contradiction.
  - intros [dx [dy [Hx [Hy [Hn ->]]]]].
    assert (Ex : dx = -1 \/ dx = 0 \/ dx = 1) by lia.
    assert (Ey : dy = -1 \/ dy = 0 \/ dy = 1) by lia.
    destruct Ex as [-> | [-> | ->]], Ey as [-> | [-> | ->]];
      try (exfalso; lia);
      replace (X c + -1) with (X c - 1) by lia;
      replace (Y c + -1) with (Y c - 1) by lia;
      rewrite ?Z.add_0_r;
      cbn [In]; repeat (first [left; reflexivity | right]).
Qed.

Lemma Neighbours_eight_around_witness :
  no_overflow origin /\
  (In (mkCoordinate 1 (-1)) (Neighbours origin) <-> chebyshev origin (mkCoordinate 1 (-1)) = 1).
Proof.
  assert (H : no_overflow origin) by (unfold no_overflow, Int.min_int, Int.max_int; simpl; lia).
  split; [exact H|].
  exact (proj1 (proj2 (proj2 (proj2 (Neighbours_eight_around origin H)))) (mkCoordinate 1 (-1))).
Defined.

(** The birth rule in terms of the relation that [Neighbours] computes:
    for a dead cell [c] that some [Neighbours l], [l] alive, contains,
    [Birth] adds [c] exactly when 3 of the 8 cells of [Neighbours c] are
    alive; no other dead cell is added. *)
Lemma Birth_by_Neighbours (g : Life) (c : Coordinate) :
  wf g -> ~ In c (LiveCells g) ->
  size (Neighbours c) = 8%nat /\
  (adjacent_to_live (LiveCells g) c ->
     (In c (LiveCellsNextGen (Birth g)) <-> live_neighbours (LiveCells g) c = 3%nat)) /\
  (live_neighbours (LiveCells g) c <> 3%nat -> ~ In c (LiveCellsNextGen (Birth g))) /\
  (~ adjacent_to_live (LiveCells g) c -> ~ In c (LiveCellsNextGen (Birth g))).
Proof.
  intros [Hs [_ He]] Hd.
  split; [apply Neighbours_size|].
  assert (E : In c (LiveCellsNextGen (Birth g)) <-> born (LiveCells g) c)
    by (rewrite In_Birth, He by exact Hs; simpl; tauto).
  unfold born in E; tauto.
Qed.

(** C3. A cell [c] of the current live set is kept by
    [SurvivalAndDeath], and is in the live set after [AdvanceOne],
    exactly when the intersection of [Neighbours c] with the current
    live set has 2 or 3 elements; otherwise it is absent from the next
    generation. *)
Theorem Survival_rule (g : Life) (c : Coordinate) :
  wf g -> In c (LiveCells g) ->
  size (inserter [] (set_intersection (Neighbours c) (LiveCells g)))
    = live_neighbours (LiveCells g) c /\
  (In c (LiveCellsNextGen (SurvivalAndDeath g)) <->
     live_neighbours (LiveCells g) c = 2%nat \/ live_neighbours (LiveCells g) c = 3%nat) /\
  (In c (LiveCells (AdvanceOne g)) <->
     live_neighbours (LiveCells g) c = 2%nat \/ live_neighbours (LiveCells g) c = 3%nat).
Proof.
  intros W Hl; pose proof W as [Hs [_ He]].
  split; [now apply count_size|split].
  - rewrite In_SurvivalAndDeath, He by exact Hs; unfold survives; simpl; tauto.
  - rewrite In_AdvanceOne by exact W; unfold born, survives; tauto.
Qed.

Lemma Survival_rule_witness :
  wf (newLife_of_list scenario3) /\
  In origin (LiveCells (newLife_of_list scenario3)) /\
  In origin (LiveCells (AdvanceOne (newLife_of_list scenario3))).
Proof.
  assert (W : wf (newLife_of_list scenario3)) by solve_wf.
  assert (L : In origin (LiveCells (newLife_of_list scenario3))) by solve_In.
  split; [exact W|split; [exact L|]].
  apply (proj2 (proj2 (Survival_rule _ _ W L))); left; reflexivity.
Defined.

(** C1, as stated, fails when the generation counter is at its last
    value: the empty game, advanced [2^32 - 1] times, is at generation
    [2^32 - 1], and one more [AdvanceOne] puts the counter at 0. *)
Lemma AdvanceOne_gen_wraps :
  reachable empty_game_at_last_gen /\
  gen empty_game_at_last_gen = 4294967295 /\
  gen (AdvanceOne empty_game_at_last_gen) = 0 /\
  gen (AdvanceOne empty_game_at_last_gen) <> gen empty_game_at_last_gen + 1.
Proof.
  split; [exact reachable_empty_game_at_last_gen|].
  split; [reflexivity|split; [reflexivity|]].
  vm_compute; discriminate.
Qed.

(** C1, amended. For every engine state, [AdvanceOne] replaces the live
    set with exactly the union of the birth result (the dead cells next
    to a live cell that have exactly 3 live neighbours) and the survival
    result (the live cells that have 2 or 3 live neighbours), every count
    being taken in the live set as it was before the call, which the
    two rule functions leave untouched; the two results are disjoint; and the generation counter becomes
    [gen + 1] modulo [2^32], which is [gen + 1] unless the counter was
    at [2^32 - 1]. *)
Theorem AdvanceOne_next_generation (g : Life) :
  wf g ->
  LiveCells (SurvivalAndDeath (Birth g)) = LiveCells g /\
  LiveCells (AdvanceOne g)
    = insert_range (survival_result (LiveCells g)) (birth_result (LiveCells g)) /\
  (forall c, In c (LiveCells (AdvanceOne g)) <->
             In c (birth_result (LiveCells g)) \/ In c (survival_result (LiveCells g))) /\
  (forall c, In c (birth_result (LiveCells g)) <-> born (LiveCells g) c) /\
  (forall c, In c (survival_result (LiveCells g)) <-> survives (LiveCells g) c) /\
  (forall c, ~ (In c (birth_result (LiveCells g)) /\ In c (survival_result (LiveCells g)))) /\
  is_set (LiveCells (AdvanceOne g)) /\
  gen (AdvanceOne g) = (gen g + 1) mod 4294967296 /\
  (gen g < 4294967295 -> gen (AdvanceOne g) = gen g + 1).
Proof.
  intros W; pose proof W as [Hs [Hg He]].
  assert (U : forall c, In c (LiveCells (AdvanceOne g)) <->
             In c (birth_result (LiveCells g)) \/ In c (survival_result (LiveCells g))).
  { intros c; rewrite In_AdvanceOne, In_birth_result, In_survival_result by auto.
    tauto. }
  split; [reflexivity|].
  split.
  { apply is_set_ext.
    - now apply is_set_AdvanceOne.
    - apply is_set_insert_range.
      unfold birth_result; apply is_set_Birth; [exact Hs|exact is_set_nil].
    - intros c; rewrite U, In_insert_range; tauto. }
  split; [exact U|].
  split; [intros c; now apply In_birth_result|].
  split; [intros c; now apply In_survival_result|].
  split.
  { intros c; rewrite In_birth_result, In_survival_result by auto.
    intros [Hb Hv]; exact (born_not_survives _ _ Hb Hv). }
  split; [now apply is_set_AdvanceOne|].
  split; [apply gen_AdvanceOne|].
  intros Hlt; now apply gen_AdvanceOne_below_max.
Qed.

Lemma AdvanceOne_next_generation_witness :
  wf (newLife_of_list blinker_horizontal) /\
  gen (AdvanceOne (newLife_of_list blinker_horizontal)) = 1.
Proof.
  assert (W : wf (newLife_of_list blinker_horizontal)) by solve_wf.
  split; [exact W|].
  apply (proj2 (proj2 (proj2 (proj2 (proj2 (proj2 (proj2 (proj2
           (AdvanceOne_next_generation _ W))))))))).
  simpl; lia.
Defined.

Lemma LiveCellsNextGen_AdvanceTo_loop (fuel : nat) (n : Z) (g g' : Life) :
  LiveCellsNextGen g = [] -> AdvanceTo_loop fuel n g = Some g' ->
  LiveCellsNextGen g' = [].
Proof.
  revert g; induction fuel as [|fuel IH]; intros g H; simpl;
    destruct (gen g <? n); intros E; try discriminate.
  - injection E as <-; exact H.
  - exact (IH _ (LiveCellsNextGen_AdvanceOne g) E).
  - injection E as <-; exact H.
Qed.

(** C5. For every engine state and every unsigned [n], the loop of
    [AdvanceTo n] ends, whatever the number of turns it is allowed beyond
    the distance to [n], in the state that repeated [AdvanceOne] reaches:
    [AdvanceOne] has run at every generation below [n] and stops at the
    first that is not.  Afterwards the generation is the maximum of the
    generation before and [n]; when [n <= gen] the state is unchanged;
    and a second [AdvanceTo n] changes nothing. *)
Theorem AdvanceTo_reaches (g : Life) (n : Z) :
  is_unsigned (gen g) -> is_unsigned n ->
  (forall fuel, (Z.to_nat (n - gen g) <= fuel)%nat ->
                AdvanceTo_loop fuel n g = Some (AdvanceTo_result n g)) /\
  AdvanceTo n g = Some (AdvanceTo_result n g) /\
  (forall j, (j < Z.to_N (n - gen g))%N -> gen (AdvanceMany j g) < n) /\
  gen (AdvanceTo_result n g) = Z.max (gen g) n /\
  (n <= gen g -> AdvanceTo_result n g = g) /\
  (forall fuel, AdvanceTo_loop fuel n (AdvanceTo_result n g)
                = Some (AdvanceTo_result n g)).
Proof.
  intros Hg Hn.
  assert (G : gen (AdvanceTo_result n g) = Z.max (gen g) n).
  { unfold AdvanceTo_result; rewrite gen_AdvanceMany by exact Hg.
    unfold is_unsigned, Unsigned.max_unsigned in *.
    rewrite Z.mod_small; lia. }
  split; [intros fuel Hf; now apply AdvanceTo_loop_enough|].
  split; [unfold AdvanceTo; now apply AdvanceTo_loop_enough|].
  split.
  { intros j Hj; rewrite gen_AdvanceMany by exact Hg.
    unfold is_unsigned, Unsigned.max_unsigned in *.
    rewrite Z.mod_small; lia. }
  split; [exact G|].
  split.
  { intros Hle; unfold AdvanceTo_result.
    replace (Z.to_N (n - gen g)) with 0%N by lia; reflexivity. }
  intros fuel; apply AdvanceTo_loop_done; lia.
Qed.

Lemma AdvanceTo_reaches_witness :
  is_unsigned (gen (newLife_of_list blinker_horizontal)) /\
  is_unsigned 2 /\
  AdvanceTo 2 (newLife_of_list blinker_horizontal)
    = Some (AdvanceTo_result 2 (newLife_of_list blinker_horizontal)).
Proof.
  assert (H0 : is_unsigned (gen (newLife_of_list blinker_horizontal)))
    by (unfold is_unsigned, Unsigned.max_unsigned; simpl; lia).
  assert (H2 : is_unsigned 2) by (unfold is_unsigned, Unsigned.max_unsigned; lia).
  split; [exact H0|split; [exact H2|]].
  exact (proj1 (proj2 (AdvanceTo_reaches _ _ H0 H2))).
Defined.

(** C7, as stated, fails after [2^32] calls: the live set is still
    empty, but the generation counter is back at 0, not at [2^32]. *)
Lemma empty_game_gen_wraps :
  LiveCells (AdvanceMany 4294967296 (newLife_of_list [])) = [] /\
  gen (AdvanceMany 4294967296 (newLife_of_list [])) = 0 /\
  gen (AdvanceMany 4294967296 (newLife_of_list [])) <> 4294967296.
Proof.
  rewrite AdvanceMany_empty; cbn [LiveCells gen].
  split; [reflexivity|split; [reflexivity|]].
  vm_compute; discriminate.
Qed.

(** C7, amended. For an engine constructed with the empty live set,
    after any number [k] of calls of [AdvanceOne] the live set is still
    empty, [cardLiveCells] returns 0 and the generation counter equals
    [k] modulo [2^32], hence [k] itself as long as [k < 2^32]; after one
    call the set is empty and the generation is 1. *)
Theorem empty_game_stays_empty (k : N) :
  LiveCells (AdvanceMany k (newLife_of_list [])) = [] /\
  cardLiveCells (AdvanceMany k (newLife_of_list [])) = 0 /\
  gen (AdvanceMany k (newLife_of_list [])) = Z.of_N k mod 4294967296 /\
  (Z.of_N k < 4294967296 -> Gen (AdvanceMany k (newLife_of_list [])) = Z.of_N k) /\
  AdvanceOne (newLife_of_list []) = mkLife [] 1 [].
Proof.
  rewrite AdvanceMany_empty; unfold Gen; cbn [LiveCells gen].
  repeat split.
  intros H; apply Z.mod_small; lia.
Qed.

Lemma empty_game_stays_empty_witness :
  Z.of_N 3 < 4294967296 /\ Gen (AdvanceMany 3 (newLife_of_list [])) = 3.
Proof.
  assert (H : Z.of_N 3 < 4294967296) by reflexivity.
  split; [exact H|].
  exact (proj1 (proj2 (proj2 (proj2 (empty_game_stays_empty 3)))) H).
Defined.

(** C8. The engine constructed with the horizontal blinker
    [{(0,0),(1,0),(-1,0)}] holds [{(0,0),(0,1),(0,-1)}] after one
    [AdvanceOne] and the initial set again after a second one, at
    generation 2. *)
Theorem blinker_round_trip :
  LiveCells (AdvanceOne (newLife_of_list blinker_horizontal))
    = set_of_list blinker_vertical /\
  LiveCells (AdvanceOne (newLife_of_list blinker_horizontal))
    = [mkCoordinate 0 (-1); mkCoordinate 0 0; mkCoordinate 0 1] /\
  LiveCells (AdvanceOne (AdvanceOne (newLife_of_list blinker_horizontal)))
    = set_of_list blinker_horizontal /\
  LiveCells (AdvanceOne (AdvanceOne (newLife_of_list blinker_horizontal)))
    = LiveCells (newLife_of_list blinker_horizontal) /\
  Gen (AdvanceOne (newLife_of_list blinker_horizontal)) = 1 /\
  Gen (AdvanceOne (AdvanceOne (newLife_of_list blinker_horizontal))) = 2.
Proof. repeat split; vm_compute; reflexivity. Qed.

(** The caller may repeat a coordinate in the braced list. *)
Example duplicates_collapse :
  LiveCells (newLife_of_list [origin; mkCoordinate 1 0; origin; origin])
  = [origin; mkCoordinate 1 0].
Proof. reflexivity. Qed.

(** C9. The live set never contains two equal coordinates.  An engine
    constructed from a list of coordinates, repeated or not, holds each
    of them once, at generation 0, and construction is a total function;
    [AdvanceOne] and [AdvanceTo] preserve the invariant of the class, so
    that every state a caller can reach has a live set without
    repetition. *)
Theorem LiveCells_unique :
  (forall cells,
      NoDup (LiveCells (newLife_of_list cells)) /\
      is_set (LiveCells (newLife_of_list cells)) /\
      (forall c, In c (LiveCells (newLife_of_list cells)) <-> In c cells) /\
      gen (newLife_of_list cells) = 0) /\
  (forall g, wf g -> wf (AdvanceOne g) /\ NoDup (LiveCells (AdvanceOne g))) /\
  (forall g n fuel g', wf g -> AdvanceTo_loop fuel n g = Some g' ->
                       wf g' /\ NoDup (LiveCells g')) /\
  (forall g, reachable g -> NoDup (LiveCells g)).
Proof.
  split; [|split; [|split]].
  - intros cells; cbn [newLife_of_list newLife LiveCells gen].
    split; [apply is_set_NoDup, is_set_set_of_list|].
    split; [apply is_set_set_of_list|].
    split; [intros c; apply In_set_of_list|reflexivity].
  - intros g W; pose proof (wf_AdvanceOne g W) as W'.
    split; [exact W'|apply is_set_NoDup, W'].
  - intros g n fuel g' W E; pose proof (wf_AdvanceTo_loop _ _ _ _ W E) as W'.
    split; [exact W'|apply is_set_NoDup, W'].
  - intros g R; apply is_set_NoDup, (reachable_wf g R).
Qed.

Lemma LiveCells_unique_witness :
  wf (newLife_of_list [origin; origin]) /\
  NoDup (LiveCells (AdvanceOne (newLife_of_list [origin; origin]))).
Proof.
  assert (W : wf (newLife_of_list [origin; origin])) by solve_wf.
  split; [exact W|].
  exact (proj2 (proj1 (proj2 LiveCells_unique) _ W)).
Defined.

(** C10. The scratch set [LiveCellsNextGen] is empty in every state a
    caller can observe: the constructor leaves it empty, [AdvanceOne]
    copies it into [LiveCells] and then empties it, and [AdvanceTo] only
    calls [AdvanceOne].  So an advance computes the next live set from
    the current live set alone. *)
Theorem LiveCellsNextGen_empty :
  (forall s, LiveCellsNextGen (newLife s) = []) /\
  (forall g, LiveCells (AdvanceOne g) = LiveCellsNextGen (SurvivalAndDeath (Birth g)) /\
             LiveCellsNextGen (AdvanceOne g) = []) /\
  (forall g n fuel g', LiveCellsNextGen g = [] ->
                       AdvanceTo_loop fuel n g = Some g' -> LiveCellsNextGen g' = []) /\
  (forall g, reachable g -> LiveCellsNextGen g = []) /\
  (forall g, reachable g ->
             LiveCells (AdvanceOne g) = LiveCells (AdvanceOne (newLife (LiveCells g)))).
Proof.
  split; [reflexivity|].
  split; [intros g; split; reflexivity|].
  split; [intros g n fuel g'; apply LiveCellsNextGen_AdvanceTo_loop|].
  split.
  - intros g R; apply (reachable_wf g R).
  - intros g R; apply AdvanceOne_LiveCells_only, (reachable_wf g R).
Qed.

Lemma LiveCellsNextGen_empty_witness :
  reachable (AdvanceOne (newLife_of_list blinker_horizontal)) /\
  LiveCellsNextGen (AdvanceOne (newLife_of_list blinker_horizontal)) = [].
Proof.
  assert (R : reachable (AdvanceOne (newLife_of_list blinker_horizontal)))
    by apply reach_one, reach_new.
  split; [exact R|].
  exact (proj1 (proj2 (proj2 (proj2 LiveCellsNextGen_empty))) _ R).
Defined.

(* ================================================================== *)
(** * Further properties of the engine *)

Lemma wrap_add1_sub1 (t : Z) :
  Int.min_int <= t <= Int.max_int -> Int.sub (Int.add t 1) 1 = t.
Proof.
  unfold Int.sub, Int.add, Int.wrap, Int.modulus, Int.min_int, Int.max_int.
  Z.div_mod_to_equations; lia.
Qed.

Lemma wrap_sub1_add1 (t : Z) :
  Int.min_int <= t <= Int.max_int -> Int.add (Int.sub t 1) 1 = t.
Proof.
  unfold Int.sub, Int.add, Int.wrap, Int.modulus, Int.min_int, Int.max_int.
  Z.div_mod_to_equations; lia.
Qed.

Lemma Neighbours_opposite (c n : Coordinate) :
  representable c -> In n (Neighbours c) -> In c (Neighbours n).
Proof.
  intros [Hx Hy] K; apply In_Neighbours in K; apply In_Neighbours.
  pose proof (wrap_add1_sub1 _ Hx) as Ax; pose proof (wrap_sub1_add1 _ Hx) as Sx.
  pose proof (wrap_add1_sub1 _ Hy) as Ay; pose proof (wrap_sub1_add1 _ Hy) as Sy.
  destruct c as [x y]; cbn [X Y] in *.
  destruct K as [K|[K|[K|[K|[K|[K|[K|[K|[]]]]]]]]]; subst n; cbn [X Y];
    [ do 7 right | do 6 right | do 5 right | do 4 right
    | do 3 right | do 2 right | right | idtac ];
    left; f_equal; assumption || reflexivity.
Qed.

Lemma live_neighbours_witness (live : set) (c : Coordinate) :
  live_neighbours live c <> 0%nat ->
  exists n, In n (Neighbours c) /\ In n live.
Proof.
  unfold live_neighbours; intros H.
  destruct (filter (fun n => mem n live) (Neighbours c)) as [|n r] eqn:E;
    [now elim H|].
  assert (K : In n (filter (fun n => mem n live) (Neighbours c)))
    by (rewrite E; now left).
  apply filter_In in K; destruct K as [K1 K2].
  exists n; split; [exact K1|now apply mem_In].
Qed.

(** A cell has at most as many live neighbours as there are other live
    cells. *)
Lemma live_neighbours_le (live : set) (c : Coordinate) :
  is_set live ->
  (live_neighbours live c + (if mem c live then 1 else 0) <= length live)%nat.
Proof.
  intros Hs; unfold live_neighbours.
  set (l := filter (fun n => mem n live) (Neighbours c)).
  assert (Hd : NoDup l) by apply NoDup_filter, is_set_NoDup, is_set_Neighbours.
  assert (Hi : forall n, In n l -> In n live /\ n <> c).
  { intros n Hn; apply filter_In in Hn; destruct Hn as [Hn Hm].
    split; [now apply mem_In|].
    intros ->; exact (Neighbours_not_self c Hn). }
  destruct (mem c live) eqn:Ec.
  - apply mem_In in Ec.
    assert (L : (length (c :: l) <= length live)%nat).
    { apply NoDup_incl_length.
      - constructor; [intros K; now apply (proj2 (Hi c K))|exact Hd].
      - intros n [<-|Hn]; [exact Ec|exact (proj1 (Hi n Hn))]. }
    simpl in L; lia.
  - rewrite Nat.add_0_r; apply NoDup_incl_length; [exact Hd|].
    intros n Hn; exact (proj1 (Hi n Hn)).
Qed.

(** X1. The neighbourhood relation is symmetric on pairs of [int]:
    [n] is among the eight cells [Neighbours c] returns exactly when [c]
    is among the eight cells [Neighbours n] returns, the arithmetic of
    [int] wrapping around at the ends of its range. *)
Theorem Neighbours_symmetric (c n : Coordinate) :
  representable c -> representable n ->
  (In n (Neighbours c) <-> In c (Neighbours n)).
Proof. intros Hc Hn; split; now apply Neighbours_opposite. Qed.

Lemma Neighbours_symmetric_witness :
  representable east_edge /\ representable west_edge /\
  In east_edge (Neighbours west_edge).
Proof.
  assert (He : representable east_edge)
    by (repeat split; vm_compute; discriminate).
  assert (Hw : representable west_edge)
    by (repeat split; vm_compute; discriminate).
  split; [exact He|split; [exact Hw|]].
  apply (proj1 (Neighbours_symmetric east_edge west_edge He Hw)).
  vm_compute; repeat (first [left; reflexivity | right]).
Defined.

(** X2. [AdvanceOne] computes the rule set B3/S2,3 on the whole grid:
    a pair of [int] is in the live set after the call exactly when it was
    alive with 2 or 3 live neighbours, or dead with 3 live neighbours.
    Looking for births among the neighbours of live cells only loses
    nothing. *)
Theorem AdvanceOne_B3_S23 (g : Life) (c : Coordinate) :
  wf g -> representable c ->
  (In c (LiveCells (AdvanceOne g)) <-> B3_S23 (LiveCells g) c).
Proof.
  intros W Hc; rewrite In_AdvanceOne by exact W.
  unfold B3_S23, born, survives, adjacent_to_live; split.
  - intros [[Hd [_ H3]]|Hs]; [right; auto|left; exact Hs].
  - intros [Hs|[Hd H3]]; [right; exact Hs|left].
    split; [exact Hd|split; [|exact H3]].
    destruct (live_neighbours_witness (LiveCells g) c) as [n [Hn Hl]]; [lia|].
    exists n; split; [exact Hl|now apply Neighbours_opposite].
Qed.

Lemma AdvanceOne_B3_S23_witness :
  wf (newLife_of_list scenario4) /\ representable origin /\
  In origin (LiveCells (AdvanceOne (newLife_of_list scenario4))).
Proof.
  assert (W : wf (newLife_of_list scenario4)) by solve_wf.
  assert (R : representable origin)
    by (repeat split; vm_compute; discriminate).
  split; [exact W|split; [exact R|]].
  apply (proj2 (AdvanceOne_B3_S23 _ _ W R)).
  right; split; [|reflexivity].
  vm_compute; intros K.
  repeat (destruct K as [K|K]; [discriminate K|]); exact K.
Defined.

Lemma candidates_length (live : list Coordinate) :
  length (flat_map Neighbours live) = (length live * 8)%nat.
Proof.
  apply flat_map_constant_length; intros c _; apply Neighbours_size.
Qed.

(** X3. [AllDeadNeighbours] returns, in ascending order and without
    repetition, exactly the cells that are a neighbour of a live cell and
    are not alive; it never returns a live cell, and never more than
    eight cells per live cell. *)
Theorem AllDeadNeighbours_dead_candidates (g : Life) :
  is_set (LiveCells g) ->
  is_set (AllDeadNeighbours g) /\
  (forall c, In c (AllDeadNeighbours g) <->
             adjacent_to_live (LiveCells g) c /\ ~ In c (LiveCells g)) /\
  (forall c, In c (AllDeadNeighbours g) -> In c (LiveCells g) -> False) /\
  (size (AllDeadNeighbours g) <= 8 * size (LiveCells g))%nat.
Proof.
  intros Hs.
  split; [apply is_set_AllDeadNeighbours|].
  split; [intros c; now apply In_AllDeadNeighbours|].
  split; [intros c Hc; now apply (In_AllDeadNeighbours g c Hs)|].
  unfold size; rewrite Nat.mul_comm, <- candidates_length.
  apply NoDup_incl_length; [apply is_set_NoDup, is_set_AllDeadNeighbours|].
  intros c Hc; apply (In_AllDeadNeighbours g c Hs) in Hc.
  destruct Hc as [[l [Hl Hn]] _]; apply in_flat_map; eauto.
Qed.

Lemma AllDeadNeighbours_dead_candidates_witness :
  is_set (LiveCells (newLife_of_list scenario4)) /\
  (size (AllDeadNeighbours (newLife_of_list scenario4)) <= 24)%nat.
Proof.
  assert (H : is_set (LiveCells (newLife_of_list scenario4))) by reflexivity.
  split; [exact H|].
  exact (proj2 (proj2 (proj2 (AllDeadNeighbours_dead_candidates _ H)))).
Defined.

(** X4. [AdvanceOne] only puts cells in the live set that were alive or
    next to a live cell, so a generation has at most nine times as many
    live cells as the one before. *)
Theorem AdvanceOne_growth (g : Life) :
  wf g ->
  (forall c, In c (LiveCells (AdvanceOne g)) ->
             In c (LiveCells g) \/ adjacent_to_live (LiveCells g) c) /\
  (size (LiveCells (AdvanceOne g)) <= 9 * size (LiveCells g))%nat.
Proof.
  intros W.
  assert (L : forall c, In c (LiveCells (AdvanceOne g)) ->
                        In c (LiveCells g) \/ adjacent_to_live (LiveCells g) c).
  { intros c Hc; apply (In_AdvanceOne g c W) in Hc.
    destruct Hc as [[_ [Ha _]]|[Hl _]]; auto. }
  split; [exact L|].
  unfold size.
  replace (9 * length (LiveCells g))%nat
    with (length (LiveCells g ++ flat_map Neighbours (LiveCells g)))
    by (rewrite length_app, candidates_length; lia).
  apply NoDup_incl_length; [now apply is_set_NoDup, is_set_AdvanceOne|].
  intros c Hc; apply in_or_app.
  destruct (L c Hc) as [Hl|[l [Hl Hn]]]; [now left|right].
  apply in_flat_map; eauto.
Qed.

Lemma AdvanceOne_growth_witness :
  wf (newLife_of_list blinker_horizontal) /\
  (size (LiveCells (AdvanceOne (newLife_of_list blinker_horizontal))) <= 27)%nat.
Proof.
  assert (W : wf (newLife_of_list blinker_horizontal)) by solve_wf.
  split; [exact W|].
  exact (proj2 (AdvanceOne_growth _ W)).
Defined.

Lemma AdvanceOne_few_cells (g : Life) :
  wf g -> (size (LiveCells g) <= 2)%nat -> LiveCells (AdvanceOne g) = [].
Proof.
  intros W H2; pose proof W as [Hs _].
  destruct (LiveCells (AdvanceOne g)) as [|c r] eqn:E; [reflexivity|exfalso].
  assert (Hc : In c (LiveCells (AdvanceOne g))) by (rewrite E; now left).
  apply (In_AdvanceOne g c W) in Hc.
  pose proof (live_neighbours_le (LiveCells g) c Hs) as B.
  unfold size in H2.
  destruct Hc as [[_ [_ H3]]|[Hl Hn]].
  - lia.
  - apply mem_In in Hl; rewrite Hl in B; lia.
Qed.

(** X5. A game with at most two live cells has none after one
    [AdvanceOne], and none after any further number of calls: no cell
    survives or is born without three cells taking part. *)
Theorem few_cells_die_out (g : Life) (k : N) :
  wf g -> (size (LiveCells g) <= 2)%nat -> (0 < k)%N ->
  LiveCells (AdvanceMany k g) = [].
Proof.
  intros W H2.
  assert (P : (size (LiveCells (AdvanceMany k g)) <= 2)%nat /\
              ((0 < k)%N -> LiveCells (AdvanceMany k g) = [])).
  { induction k as [|k [IH _]] using N.peano_ind.
    - split; [exact H2|intros K; lia].
    - rewrite AdvanceMany_succ.
      rewrite (AdvanceOne_few_cells _ (wf_AdvanceMany k g W) IH).
      split; [simpl; lia|reflexivity]. }
  exact (proj2 P).
Qed.

Lemma few_cells_die_out_witness :
  wf (newLife_of_list [origin; mkCoordinate 1 1]) /\
  (size (LiveCells (newLife_of_list [origin; mkCoordinate 1 1])) <= 2)%nat /\
  (0 < 5)%N /\
  LiveCells (AdvanceMany 5 (newLife_of_list [origin; mkCoordinate 1 1])) = [].
Proof.
  assert (W : wf (newLife_of_list [origin; mkCoordinate 1 1])) by solve_wf.
  assert (H2 : (size (LiveCells (newLife_of_list [origin; mkCoordinate 1 1])) <= 2)%nat)
    by (vm_compute; repeat constructor).
  assert (K : (0 < 5)%N) by reflexivity.
  split; [exact W|split; [exact H2|split; [exact K|]]].
  exact (few_cells_die_out _ 5 W H2 K).
Defined.

Lemma LiveCellsNextGen_AdvanceMany (k : N) (g : Life) :
  LiveCellsNextGen g = [] -> LiveCellsNextGen (AdvanceMany k g) = [].
Proof.
  intros H; induction k as [|k IH] using N.peano_ind; [exact H|].
  rewrite AdvanceMany_succ; reflexivity.
Qed.

Lemma AdvanceMany_add (j k : N) (g : Life) :
  AdvanceMany (j + k) g = AdvanceMany j (AdvanceMany k g).
Proof. unfold AdvanceMany; apply N.iter_add. Qed.

Lemma AdvanceMany_LiveCells_only (k : N) (g g' : Life) :
  LiveCellsNextGen g = [] -> LiveCellsNextGen g' = [] ->
  LiveCells g = LiveCells g' ->
  LiveCells (AdvanceMany k g) = LiveCells (AdvanceMany k g').
Proof.
  intros H H' E; induction k as [|k IH] using N.peano_ind; [exact E|].
  rewrite !AdvanceMany_succ.
  rewrite (AdvanceOne_LiveCells_only (AdvanceMany k g))
    by now apply LiveCellsNextGen_AdvanceMany.
  rewrite (AdvanceOne_LiveCells_only (AdvanceMany k g'))
    by now apply LiveCellsNextGen_AdvanceMany.
  now rewrite IH.
Qed.

(** X6. The evolution of the live set does not depend on the generation
    counter: two games with the same live cells have the same live cells
    after any number of calls of [AdvanceOne].  So a game that shows its
    live set again after [p] calls shows it after every multiple of [p]
    calls. *)
Theorem evolution_of_LiveCells (g : Life) :
  wf g ->
  (forall g' k, wf g' -> LiveCells g = LiveCells g' ->
                LiveCells (AdvanceMany k g) = LiveCells (AdvanceMany k g')) /\
  (forall p j, LiveCells (AdvanceMany p g) = LiveCells g ->
               LiveCells (AdvanceMany (j * p) g) = LiveCells g).
Proof.
  intros W; pose proof W as [_ [_ He]]; split.
  - intros g' k [_ [_ He']] E; now apply AdvanceMany_LiveCells_only.
  - intros p j Hp; induction j as [|j IH] using N.peano_ind; [reflexivity|].
    replace (N.succ j * p)%N with (j * p + p)%N by lia.
    rewrite AdvanceMany_add.
    rewrite (AdvanceMany_LiveCells_only (j * p) (AdvanceMany p g) g); auto.
    now apply LiveCellsNextGen_AdvanceMany.
Qed.

Lemma evolution_of_LiveCells_witness :
  wf (newLife_of_list blinker_horizontal) /\
  LiveCells (AdvanceMany (3 * 2) (newLife_of_list blinker_horizontal))
    = LiveCells (newLife_of_list blinker_horizontal).
Proof.
  assert (W : wf (newLife_of_list blinker_horizontal)) by solve_wf.
  split; [exact W|].
  apply (proj2 (evolution_of_LiveCells _ W) 2%N 3%N).
  vm_compute; reflexivity.
Defined.

(** X7. [AdvanceTo m] followed by [AdvanceTo n] is [AdvanceTo] of the
    larger of the two targets: both loops end, and the second one starts
    where the first one stopped. *)
Theorem AdvanceTo_then_AdvanceTo (g : Life) (m n : Z) :
  is_unsigned (gen g) -> is_unsigned m -> is_unsigned n ->
  AdvanceTo m g = Some (AdvanceTo_result m g) /\
  AdvanceTo n (AdvanceTo_result m g) = Some (AdvanceTo_result (Z.max m n) g) /\
  AdvanceTo (Z.max m n) g = Some (AdvanceTo_result (Z.max m n) g).
Proof.
  intros Hg Hm Hn.
  assert (Hmax : is_unsigned (Z.max m n)) by (unfold is_unsigned in *; lia).
  pose proof (AdvanceTo_loop_enough (Z.to_nat (m - gen g)) m g
                Hg Hm (Nat.le_refl _)) as R1.
  assert (G1 : gen (AdvanceTo_result m g) = Z.max (gen g) m).
  { unfold AdvanceTo_result; rewrite gen_AdvanceMany by exact Hg.
    unfold is_unsigned, Unsigned.max_unsigned in *.
    rewrite Z.mod_small; lia. }
  pose proof (AdvanceTo_loop_enough (Z.to_nat (Z.max m n - gen g)) (Z.max m n) g
                Hg Hmax (Nat.le_refl _)) as R3.
  assert (H1 : is_unsigned (gen (AdvanceTo_result m g)))
    by (rewrite G1; unfold is_unsigned in *; lia).
  pose proof (AdvanceTo_loop_enough (Z.to_nat (n - gen (AdvanceTo_result m g))) n _
                H1 Hn (Nat.le_refl _)) as R2.
  split; [exact R1|split; [|exact R3]].
  unfold AdvanceTo; rewrite R2; f_equal.
  rewrite G1; unfold AdvanceTo_result; rewrite <- AdvanceMany_add; f_equal.
  unfold is_unsigned in *; lia.
Qed.

Lemma AdvanceTo_then_AdvanceTo_witness :
  is_unsigned (gen (newLife_of_list blinker_horizontal)) /\
  is_unsigned 3 /\ is_unsigned 1 /\
  AdvanceTo 1 (AdvanceTo_result 3 (newLife_of_list blinker_horizontal))
    = Some (AdvanceTo_result (Z.max 3 1) (newLife_of_list blinker_horizontal)).
Proof.
  assert (H0 : is_unsigned (gen (newLife_of_list blinker_horizontal)))
    by (repeat split; vm_compute; discriminate).
  assert (H3 : is_unsigned 3) by (repeat split; vm_compute; discriminate).
  assert (H1 : is_unsigned 1) by (repeat split; vm_compute; discriminate).
  split; [exact H0|split; [exact H3|split; [exact H1|]]].
  exact (proj1 (proj2 (AdvanceTo_then_AdvanceTo _ 3 1 H0 H3 H1))).
Defined.

(** X8. The engine a caller constructs depends on which coordinates the
    braced list names, not on their order or on how often each is
    written; and [cardLiveCells] then counts the coordinates: it never
    exceeds the length of the list and equals it when no coordinate is
    repeated (the list being shorter than [2^32]). *)
Theorem newLife_of_list_cells (cells cells' : list Coordinate) :
  ((forall c, In c cells <-> In c cells') ->
   newLife_of_list cells = newLife_of_list cells') /\
  (size (LiveCells (newLife_of_list cells)) <= length cells)%nat /\
  (NoDup cells -> Z.of_nat (length cells) <= Unsigned.max_unsigned ->
   cardLiveCells (newLife_of_list cells) = Z.of_nat (length cells)).
Proof.
  split; [|split].
  - intros E; unfold newLife_of_list; f_equal.
    apply is_set_ext; try apply is_set_set_of_list.
    intros c; rewrite !In_set_of_list; apply E.
  - unfold size; cbn [newLife_of_list newLife LiveCells].
    apply NoDup_incl_length; [apply is_set_NoDup, is_set_set_of_list|].
    intros c; apply In_set_of_list.
  - intros Hd Hl; unfold cardLiveCells, size.
    cbn [newLife_of_list newLife LiveCells].
    rewrite set_of_list_length by exact Hd.
    unfold Unsigned.wrap, Unsigned.modulus, Unsigned.max_unsigned in *.
    apply Z.mod_small; lia.
Qed.

Lemma newLife_of_list_cells_witness :
  (forall c, In c [origin; east_edge; origin] <-> In c [east_edge; origin]) /\
  newLife_of_list [origin; east_edge; origin] = newLife_of_list [east_edge; origin].
Proof.
  assert (E : forall c, In c [origin; east_edge; origin] <-> In c [east_edge; origin])
    by (intros c; simpl; tauto).
  split; [exact E|].
  exact (proj1 (newLife_of_list_cells _ _) E).
Defined.

(** X9. Away from the ends of the range of [int], the eight coordinates
    that [Neighbours] initialises are in ascending order as the comment in
    the source says, so that the set it returns iterates them in the
    order they are written: SW, W, NW, S, N, SE, E, NE. *)
Theorem Neighbours_as_written (c : Coordinate) :
  no_overflow c ->
  is_set [ mkCoordinate (X c - 1) (Y c - 1); mkCoordinate (X c - 1) (Y c);
           mkCoordinate (X c - 1) (Y c + 1); mkCoordinate (X c) (Y c - 1);
           mkCoordinate (X c) (Y c + 1); mkCoordinate (X c + 1) (Y c - 1);
           mkCoordinate (X c + 1) (Y c); mkCoordinate (X c + 1) (Y c + 1) ] /\
  Neighbours c =
  [ mkCoordinate (X c - 1) (Y c - 1); mkCoordinate (X c - 1) (Y c);
    mkCoordinate (X c - 1) (Y c + 1); mkCoordinate (X c) (Y c - 1);
    mkCoordinate (X c) (Y c + 1); mkCoordinate (X c + 1) (Y c - 1);
    mkCoordinate (X c + 1) (Y c); mkCoordinate (X c + 1) (Y c + 1) ].
Proof.
  intros H; pose proof (Neighbours_no_overflow c H) as E.
  split; [rewrite <- E; apply is_set_Neighbours|exact E].
Qed.

Lemma Neighbours_as_written_witness :
  no_overflow origin /\
  Neighbours origin =
  [ mkCoordinate (-1) (-1); mkCoordinate (-1) 0; mkCoordinate (-1) 1;
    mkCoordinate 0 (-1); mkCoordinate 0 1;
    mkCoordinate 1 (-1); mkCoordinate 1 0; mkCoordinate 1 1 ].
Proof.
  assert (H : no_overflow origin) by (repeat split; vm_compute; reflexivity).
  split; [exact H|].
  exact (proj2 (Neighbours_as_written origin H)).
Defined.

(* ================================================================== *)
(** * The birth rule on the unbounded grid *)

Lemma chebyshev_sym (a b : Coordinate) : chebyshev a b = chebyshev b a.
Proof. unfold chebyshev; lia. Qed.

Lemma In_Neighbours_chebyshev (l c : Coordinate) :
  no_overflow l -> (In c (Neighbours l) <-> chebyshev l c = 1).
Proof.
  intros H; rewrite (Neighbours_no_overflow l H); split.
  - cbn [In]; intros K;
      repeat (destruct K as [K|K]; [subst c; unfold chebyshev; cbn [X Y]; lia|]);
      contradiction.
  - intros K.
    assert (D : (X c = X l - 1 \/ X c = X l \/ X c = X l + 1) /\
                (Y c = Y l - 1 \/ Y c = Y l \/ Y c = Y l + 1) /\
                (X c <> X l \/ Y c <> Y l)) by (unfold chebyshev in K; lia).
    destruct D as [Hx [Hy Hn]]; destruct c as [cx cy]; cbn [X Y] in *.
    destruct Hx as [-> | [-> | ->]], Hy as [-> | [-> | ->]];
      try (cbn [In]; repeat (first [left; reflexivity | right])); lia.
Qed.

Lemma no_overflow_representable (c : Coordinate) :
  no_overflow c -> representable c.
Proof. unfold no_overflow, representable; lia. Qed.

Lemma next_to_representable (l c : Coordinate) :
  no_overflow l -> chebyshev l c = 1 -> representable c.
Proof. unfold no_overflow, representable, chebyshev, Int.min_int, Int.max_int; lia. Qed.

(** Around a pair of [int], the live cells that [Neighbours] reaches are
    the live cells at distance 1, when no live cell is on the edge. *)
Lemma live_in_Neighbours (live : set) (c n : Coordinate) :
  (forall l, In l live -> no_overflow l) -> representable c -> In n live ->
  (In n (Neighbours c) <-> chebyshev c n = 1).
Proof.
  intros Hl Hc Hn; pose proof (Hl n Hn) as Ho.
  rewrite chebyshev_sym, <- (In_Neighbours_chebyshev n c Ho); split.
  - now apply Neighbours_opposite.
  - now apply Neighbours_opposite, no_overflow_representable.
Qed.

Lemma count_common (a b : set) :
  NoDup a -> NoDup b ->
  length (filter (fun z => mem z b) a) = length (filter (fun z => mem z a) b).
Proof.
  intros Ha Hb; apply Permutation_length, NoDup_Permutation;
    try now apply NoDup_filter.
  intros z; rewrite !filter_In, !mem_In; tauto.
Qed.

Lemma live_neighbours_near (live : set) (c : Coordinate) :
  is_set live -> (forall l, In l live -> no_overflow l) -> representable c ->
  live_neighbours live c = length (near live c).
Proof.
  intros Hs Hl Hc; unfold live_neighbours, near.
  rewrite count_common by auto using is_set_NoDup, is_set_Neighbours.
  f_equal; apply filter_ext_in; intros n Hn.
  apply eq_true_iff_eq; rewrite mem_In, Z.eqb_eq.
  now apply live_in_Neighbours with (live := live).
Qed.

Lemma adjacent_next_to_live (live : set) (c : Coordinate) :
  (forall l, In l live -> no_overflow l) ->
  (adjacent_to_live live c <-> next_to_live live c).
Proof.
  intros Hl; unfold adjacent_to_live, next_to_live; split;
    intros [l [H K]]; exists l; split; auto.
  - rewrite chebyshev_sym; now apply In_Neighbours_chebyshev; auto.
  - apply In_Neighbours_chebyshev; auto; now rewrite chebyshev_sym.
Qed.

(** C2, as stated, fails at the edge of the range of [int].  With the
    three live cells [(INT_MIN,-1)], [(INT_MIN,0)], [(INT_MIN,1)], the
    cell [(INT_MAX,0)] is dead, is [2^32 - 1] columns away from every
    live cell, has no live cell at distance 1, and [Birth] adds it to the
    next generation: [Neighbours] reaches the live cells from it through
    the overflow of [X + 1]. *)
Lemma Birth_across_the_edge :
  reachable (newLife_of_list west_column) /\
  ~ In east_edge (LiveCells (newLife_of_list west_column)) /\
  (forall l, In l (LiveCells (newLife_of_list west_column)) ->
             chebyshev east_edge l = 4294967295) /\
  ~ next_to_live (LiveCells (newLife_of_list west_column)) east_edge /\
  near (LiveCells (newLife_of_list west_column)) east_edge = [] /\
  In east_edge (LiveCellsNextGen (Birth (newLife_of_list west_column))).
Proof.
  assert (F : forall l, In l (LiveCells (newLife_of_list west_column)) ->
                        chebyshev east_edge l = 4294967295).
  { intros l Hl; vm_compute in Hl.
    repeat (destruct Hl as [Hl|Hl]; [subst l; reflexivity|]); contradiction. }
  split; [apply reach_new|].
  split.
  { vm_compute; intros K.
    repeat (destruct K as [K|K]; [discriminate K|]); exact K. }
  split; [exact F|].
  split.
  { intros [l [Hl K]]; rewrite (F l Hl) in K; discriminate K. }
  split; [reflexivity|solve_In].
Qed.

(** C2, amended. For every live set whose cells have both components
    strictly between [INT_MIN] and [INT_MAX], and every dead cell [c]:
    when [c] is at Chebyshev distance 1 from at least one live cell,
    [Birth] adds [c] to the next generation exactly when 3 of the cells
    at distance 1 from [c] are alive; with any other number of live
    neighbours [c] is not added; and a dead cell that is not at distance
    1 from any live cell is never added. *)
Theorem Birth_rule_inside_range (g : Life) (c : Coordinate) :
  wf g -> (forall l, In l (LiveCells g) -> no_overflow l) ->
  ~ In c (LiveCells g) ->
  (next_to_live (LiveCells g) c ->
     (In c (LiveCellsNextGen (Birth g)) <-> length (near (LiveCells g) c) = 3%nat)) /\
  (length (near (LiveCells g) c) <> 3%nat -> ~ In c (LiveCellsNextGen (Birth g))) /\
  (~ next_to_live (LiveCells g) c -> ~ In c (LiveCellsNextGen (Birth g))).
Proof.
  intros W Hl Hd; pose proof W as [Hs [_ He]].
  assert (E : In c (LiveCellsNextGen (Birth g)) <-> born (LiveCells g) c)
    by (rewrite In_Birth, He by exact Hs; simpl; tauto).
  assert (R : next_to_live (LiveCells g) c ->
              live_neighbours (LiveCells g) c = length (near (LiveCells g) c)).
  { intros [l [Hin K]]; apply live_neighbours_near; auto.
    apply (next_to_representable l c (Hl l Hin)); now rewrite chebyshev_sym. }
  unfold born in E; rewrite (adjacent_next_to_live _ c Hl) in E.
  split; [|split].
  - intros N; rewrite E, (R N); tauto.
  - intros H3 K; apply E in K; destruct K as [_ [N K]].
    rewrite (R N) in K; exact (H3 K).
  - intros N K; apply E in K; tauto.
Qed.

Lemma Birth_rule_inside_range_witness :
  wf (newLife_of_list scenario4) /\
  (forall l, In l (LiveCells (newLife_of_list scenario4)) -> no_overflow l) /\
  ~ In origin (LiveCells (newLife_of_list scenario4)) /\
  next_to_live (LiveCells (newLife_of_list scenario4)) origin /\
  In origin (LiveCellsNextGen (Birth (newLife_of_list scenario4))).
Proof.
  assert (W : wf (newLife_of_list scenario4)) by solve_wf.
  assert (H : forall l, In l (LiveCells (newLife_of_list scenario4)) -> no_overflow l).
  { intros l Hl; vm_compute in Hl.
    repeat (destruct Hl as [Hl|Hl];
            [subst l; repeat split; vm_compute; reflexivity|]).
    contradiction. }
  assert (D : ~ In origin (LiveCells (newLife_of_list scenario4))).
  { vm_compute; intros K.
    repeat (destruct K as [K|K]; [discriminate K|]); exact K. }
  assert (N : next_to_live (LiveCells (newLife_of_list scenario4)) origin).
  { exists (mkCoordinate 1 0); split; [solve_In|reflexivity]. }
  split; [exact W|split; [exact H|split; [exact D|split; [exact N|]]]].
  apply (proj1 (Birth_rule_inside_range _ _ W H D) N); reflexivity.
Defined.

(* ================================================================== *)
(** * Moving a pattern on the grid *)

Lemma translate_ltb (dx dy : Z) (a b : Coordinate) :
  Coordinate_ltb (translate dx dy a) (translate dx dy b) = Coordinate_ltb a b.
Proof.
  destruct (Coordinate_ltb a b) eqn:E.
  - apply Coordinate_ltb_lex; apply Coordinate_ltb_lex in E.
    unfold translate; cbn [X Y]; lia.
  - destruct (Coordinate_ltb (translate dx dy a) (translate dx dy b)) eqn:E';
      [|reflexivity].
    apply Coordinate_ltb_lex in E'; unfold translate in E'; cbn [X Y] in E'.
    assert (K : Coordinate_ltb a b = true) by (apply Coordinate_ltb_lex; lia).
    congruence.
Qed.

Lemma translate_inj (dx dy : Z) (a b : Coordinate) :
  translate dx dy a = translate dx dy b -> a = b.
Proof.
  intros E; apply Coordinate_ext.
  pose proof (f_equal X E) as Ex; pose proof (f_equal Y E) as Ey.
  unfold translate in Ex, Ey; cbn [X Y] in Ex, Ey; lia.
Qed.

Lemma In_map_translate (dx dy : Z) (c : Coordinate) (l : list Coordinate) :
  In (translate dx dy c) (map (translate dx dy) l) <-> In c l.
Proof.
  rewrite in_map_iff; split.
  - intros [c' [E H]]; apply translate_inj in E; now subst.
  - intros H; now exists c.
Qed.

Lemma is_set_map_translate (dx dy : Z) (l : set) :
  is_set l -> is_set (map (translate dx dy) l).
Proof.
  induction l as [|x l IH]; intros H; [exact H|].
  apply is_set_cons in H; destruct H as [Hx Hl].
  cbn [map]; apply is_set_cons; split; [|now apply IH].
  intros y Hy; apply in_map_iff in Hy; destruct Hy as [y' [<- Hy']].
  unfold Coordinate_lt; rewrite translate_ltb; now apply Hx.
Qed.

Lemma interior_no_overflow (c : Coordinate) : interior c -> no_overflow c.
Proof. unfold interior, no_overflow, Int.min_int, Int.max_int; lia. Qed.

Lemma neighbour_of_interior (l c : Coordinate) :
  interior l -> In c (Neighbours l) -> no_overflow c.
Proof.
  intros H K; rewrite (Neighbours_no_overflow l (interior_no_overflow l H)) in K.
  unfold interior, no_overflow, Int.min_int, Int.max_int in *.
  cbn [In] in K.
  repeat (destruct K as [K|K]; [subst c; cbn [X Y]; lia|]); contradiction.
Qed.

Lemma Neighbours_translate (dx dy : Z) (c : Coordinate) :
  no_overflow c -> no_overflow (translate dx dy c) ->
  Neighbours (translate dx dy c) = map (translate dx dy) (Neighbours c).
Proof.
  intros H H'.
  rewrite (Neighbours_no_overflow _ H), (Neighbours_no_overflow _ H').
  unfold translate; cbn [map X Y].
  repeat (f_equal; try lia).
Qed.

Lemma live_neighbours_translate (dx dy : Z) (live : set) (c : Coordinate) :
  no_overflow c -> no_overflow (translate dx dy c) ->
  live_neighbours (map (translate dx dy) live) (translate dx dy c)
  = live_neighbours live c.
Proof.
  intros H H'; unfold live_neighbours.
  rewrite (Neighbours_translate dx dy c H H'), filter_map_swap, length_map.
  f_equal; apply filter_ext; intros n.
  apply eq_true_iff_eq; rewrite !mem_In; apply In_map_translate.
Qed.

(** X10. The rules do not depend on where a pattern lies: as long as the
    live cells, before and after the move, stay two cells away from the
    ends of the range of [int], moving every live cell by [(dx, dy)] and
    then calling [AdvanceOne] gives the live set that calling
    [AdvanceOne] and then moving every live cell gives. *)
Theorem AdvanceOne_translate (g : Life) (dx dy : Z) :
  wf g ->
  (forall c, In c (LiveCells g) -> interior c /\ interior (translate dx dy c)) ->
  LiveCells (AdvanceOne (newLife (map (translate dx dy) (LiveCells g))))
  = map (translate dx dy) (LiveCells (AdvanceOne g)).
Proof.
  intros W Hi; pose proof W as [Hs _].
  assert (W' : wf (newLife (map (translate dx dy) (LiveCells g))))
    by now apply wf_newLife, is_set_map_translate.
  assert (Hn : forall l c, In l (LiveCells g) -> In c (Neighbours l) ->
                 no_overflow c /\ no_overflow (translate dx dy c) /\
                 In (translate dx dy c) (Neighbours (translate dx dy l))).
  { intros l c Hl Hc; destruct (Hi l Hl) as [I I'].
    assert (K : In (translate dx dy c) (Neighbours (translate dx dy l))).
    { rewrite Neighbours_translate by now apply interior_no_overflow.
      now apply in_map. }
    split; [exact (neighbour_of_interior l c I Hc)|].
    split; [exact (neighbour_of_interior _ _ I' K)|exact K]. }
  apply is_set_ext.
  - now apply is_set_AdvanceOne.
  - now apply is_set_map_translate, is_set_AdvanceOne.
  - intros z; rewrite (In_AdvanceOne _ z W'), in_map_iff.
    cbn [newLife LiveCells]; split.
    + intros [[Hd [[l' [Hl' Hz]] H3]]|[Hl H23]].
      * apply in_map_iff in Hl'; destruct Hl' as [l [<- Hl]].
        destruct (Hi l Hl) as [I I'].
        rewrite Neighbours_translate in Hz by now apply interior_no_overflow.
        apply in_map_iff in Hz; destruct Hz as [c [<- Hc]].
        destruct (Hn l c Hl Hc) as [N [N' _]].
        rewrite live_neighbours_translate in H3 by assumption.
        exists c; split; [reflexivity|].
        apply (In_AdvanceOne g c W); left.
        split; [intros K; apply Hd; now apply In_map_translate|].
        split; [exists l; auto|exact H3].
      * apply in_map_iff in Hl; destruct Hl as [c [<- Hc]].
        destruct (Hi c Hc) as [I I'].
        rewrite live_neighbours_translate in H23 by now apply interior_no_overflow.
        exists c; split; [reflexivity|].
        apply (In_AdvanceOne g c W); right; split; assumption.
    + intros [c [<- Hc]]; apply (In_AdvanceOne g c W) in Hc.
      destruct Hc as [[Hd [[l [Hl Hc]] H3]]|[Hl H23]].
      * destruct (Hn l c Hl Hc) as [N [N' K]].
        left; split; [intros K'; apply Hd; now apply In_map_translate in K'|].
        split; [exists (translate dx dy l); split; [now apply in_map|exact K]|].
        now rewrite live_neighbours_translate.
      * destruct (Hi c Hl) as [I I'].
        right; split; [now apply in_map|].
        now rewrite live_neighbours_translate by now apply interior_no_overflow.
Qed.

Lemma AdvanceOne_translate_witness :
  wf (newLife_of_list blinker_horizontal) /\
  LiveCells (AdvanceOne (newLife (map (translate 10 (-3))
                                      (LiveCells (newLife_of_list blinker_horizontal)))))
  = map (translate 10 (-3)) (LiveCells (AdvanceOne (newLife_of_list blinker_horizontal))).
Proof.
  assert (W : wf (newLife_of_list blinker_horizontal)) by solve_wf.
  split; [exact W|].
  apply (AdvanceOne_translate _ 10 (-3) W).
  intros c Hc; vm_compute in Hc.
  repeat (destruct Hc as [Hc|Hc];
          [subst c; repeat split; vm_compute; reflexivity|]).
  contradiction.
Defined.

(* ================================================================== *)
(** * The text written by the print operators *)

Import String Ascii.

Lemma chars_append (a b : string) :
  list_ascii_of_string (a ++ b)%string
  = list_ascii_of_string a ++ list_ascii_of_string b.
Proof. induction a as [|ch a IH]; simpl; [reflexivity|now rewrite IH]. Qed.

Lemma chars_inj (a b : string) :
  list_ascii_of_string a = list_ascii_of_string b -> a = b.
Proof.
  intros H; apply (f_equal string_of_list_ascii) in H.
  now rewrite !string_of_list_ascii_of_string in H.
Qed.

Lemma append_assoc (a b c : string) :
  ((a ++ b) ++ c)%string = (a ++ (b ++ c))%string.
Proof. apply chars_inj; rewrite !chars_append; symmetry; apply app_assoc. Qed.

Lemma append_inv_head (a b c : string) :
  (a ++ b)%string = (a ++ c)%string -> b = c.
Proof.
  intros H; apply chars_inj.
  apply (f_equal list_ascii_of_string) in H; rewrite !chars_append in H.
  exact (app_inv_head _ _ _ H).
Qed.

Lemma length_append (a b : string) :
  String.length (a ++ b)%string = (String.length a + String.length b)%nat.
Proof. induction a as [|ch a IH]; simpl; [reflexivity|now rewrite IH]. Qed.

(** The first occurrence of a character cuts a sequence in one way. *)
Lemma split_first (x : ascii) (a a' r r' : list ascii) :
  ~ In x a -> ~ In x a' -> a ++ x :: r = a' ++ x :: r' -> a = a' /\ r = r'.
Proof.
  revert a'; induction a as [|y a IH]; intros [|y' a'] Ha Ha' E; simpl in *.
  - injection E as E; auto.
  - injection E as E1 E2; exfalso; apply Ha'; now left.
  - injection E as E1 E2; exfalso; apply Ha; now left.
  - injection E as E1 E2; subst y'.
    destruct (IH a') as [-> ->]; auto.
Qed.

Lemma uint_digits (d : Decimal.uint) (ch : ascii) :
  In ch (list_ascii_of_string (DecimalString.NilEmpty.string_of_uint d)) ->
  In ch (list_ascii_of_string "0123456789").
Proof.
  induction d as [|d IH|d IH|d IH|d IH|d IH|d IH|d IH|d IH|d IH|d IH];
    simpl; intros H; try contradiction;
    (destruct H as [<-|H]; [tauto|exact (IH H)]).
Qed.

Lemma decimal_chars (z : Z) (ch : ascii) :
  In ch (list_ascii_of_string (Text.decimal z)) ->
  In ch (list_ascii_of_string "-0123456789").
Proof.
  assert (U : forall d, In ch (list_ascii_of_string
                                 (DecimalString.NilZero.string_of_uint d)) ->
                        In ch (list_ascii_of_string "0123456789")).
  { intros d; destruct d; try apply uint_digits.
    simpl; tauto. }
  unfold Text.decimal, DecimalString.NilZero.string_of_int.
  destruct (Z.to_int z) as [d|d].
  - intros H; right; exact (U d H).
  - intros [<-|H]; [now left|right; exact (U d H)].
Qed.

Lemma decimal_no_punctuation (z : Z) (ch : ascii) :
  In ch (list_ascii_of_string "(,) ") \/ ch = Text.backspace ->
  ~ In ch (list_ascii_of_string (Text.decimal z)).
Proof.
  intros P H; apply decimal_chars in H.
  unfold Text.backspace in P; simpl in P, H.
  repeat (destruct P as [P|P]; try contradiction);
    subst ch;
    repeat (destruct H as [H|H]; [discriminate H|]); exact H.
Qed.

Lemma decimal_inj (z z' : Z) : Text.decimal z = Text.decimal z' -> z = z'.
Proof.
  assert (N : forall i, Z.to_int i <> Decimal.Pos Decimal.Nil /\
                        Z.to_int i <> Decimal.Neg Decimal.Nil).
  { intros [|p|p]; split; simpl; intros K; try discriminate K;
      injection K as K; exact (DecimalPos.Unsigned.to_uint_nonnil p K). }
  unfold Text.decimal; intros H.
  apply DecimalZ.to_int_inj.
  apply (f_equal DecimalString.NilZero.int_of_string) in H.
  rewrite !DecimalString.NilZero.isi in H by apply N.
  now injection H.
Qed.

Lemma chars_cell (c : Coordinate) (r : list ascii) :
  list_ascii_of_string (Text.cell c) ++ r
  = "("%char :: list_ascii_of_string (Text.decimal (X c))
      ++ ","%char :: list_ascii_of_string (Text.decimal (Y c))
      ++ ")"%char :: r.
Proof.
  unfold Text.cell; rewrite !chars_append; simpl.
  rewrite <- !app_assoc; simpl; rewrite <- !app_assoc; reflexivity.
Qed.

(** The text of a cell ends at its closing bracket and names the cell. *)
Lemma cell_prefix_inj (c c' : Coordinate) (r r' : list ascii) :
  list_ascii_of_string (Text.cell c) ++ r
  = list_ascii_of_string (Text.cell c') ++ r' ->
  c = c' /\ r = r'.
Proof.
  rewrite !chars_cell; intros E; injection E as E.
  apply split_first in E;
    try (apply decimal_no_punctuation; left; simpl; tauto).
  destruct E as [Ex E].
  apply split_first in E;
    try (apply decimal_no_punctuation; left; simpl; tauto).
  destruct E as [Ey E].
  split; [|exact E].
  apply Coordinate_ext; split; apply decimal_inj, chars_inj; assumption.
Qed.

Lemma print_Coordinate_cell (out : string) (c : Coordinate) :
  Text.print_Coordinate out c = (out ++ Text.cell c)%string.
Proof.
  unfold Text.print_Coordinate, Text.put, Text.put_int, Text.cell.
  now rewrite !append_assoc.
Qed.

(** X11. [operator<<] for a [Coordinate] appends [(X,Y)] with both
    numbers in decimal to the stream and leaves what was written before
    untouched; two coordinates are written with the same characters only
    when they are equal. *)
Theorem print_Coordinate_injective (out : string) (a b : Coordinate) :
  Text.print_Coordinate out a
    = (out ++ "(" ++ Text.decimal (X a) ++ "," ++ Text.decimal (Y a) ++ ")")%string /\
  (Text.print_Coordinate out a = Text.print_Coordinate out b -> a = b).
Proof.
  split; [apply print_Coordinate_cell|].
  rewrite !print_Coordinate_cell; intros E; apply append_inv_head in E.
  apply (f_equal list_ascii_of_string) in E.
  destruct (cell_prefix_inj a b [] []) as [H _]; [|exact H].
  now rewrite !app_nil_r.
Qed.

Lemma print_Coordinate_injective_witness :
  Text.print_Coordinate "at "%string east_edge = "at (2147483647,0)"%string.
Proof.
  rewrite (proj1 (print_Coordinate_injective "at "%string east_edge east_edge)).
  reflexivity.
Defined.

Lemma append_nil_r (a : string) : (a ++ EmptyString)%string = a.
Proof. induction a as [|ch a IH]; simpl; [reflexivity|now rewrite IH]. Qed.

Lemma print_Life_loop (l : list Coordinate) (out : string) :
  fold_left (fun out it => Text.put (Text.print_Coordinate out it) " , ") l out
  = (out ++ Text.cells l)%string.
Proof.
  revert out; induction l as [|c l IH]; intros out; cbn [fold_left Text.cells].
  - now rewrite append_nil_r.
  - rewrite IH, print_Coordinate_cell; unfold Text.put.
    now rewrite !append_assoc.
Qed.

Lemma cells_snoc (l : list Coordinate) (c : Coordinate) :
  Text.cells (l ++ [c]) = (Text.cells l ++ Text.cell c ++ " , ")%string.
Proof.
  induction l as [|x l IH]; cbn [app Text.cells].
  - now rewrite append_nil_r.
  - now rewrite IH, !append_assoc.
Qed.

Lemma print_Life_nonempty (out : string) (g : Life) :
  LiveCells g <> [] ->
  Text.print_Life out g
  = (out ++ "{" ++ Text.cells (LiveCells g) ++ Text.backspaces ++ "}")%string.
Proof.
  intros H; unfold Text.print_Life, size.
  destruct (LiveCells g) as [|c l]; [now elim H|].
  cbn [List.length Nat.eqb]; rewrite print_Life_loop; unfold Text.put.
  now rewrite !append_assoc.
Qed.

Lemma cell_no_backspace (c : Coordinate) :
  ~ In Text.backspace (list_ascii_of_string (Text.cell c)).
Proof.
  intros H.
  assert (K : In Text.backspace (list_ascii_of_string (Text.cell c) ++ []))
    by (apply in_or_app; now left).
  rewrite chars_cell in K.
  destruct K as [K|K]; [discriminate K|].
  apply in_app_or in K; destruct K as [K|K];
    [exact (decimal_no_punctuation _ _ (or_intror eq_refl) K)|].
  destruct K as [K|K]; [discriminate K|].
  apply in_app_or in K; destruct K as [K|K];
    [exact (decimal_no_punctuation _ _ (or_intror eq_refl) K)|].
  destruct K as [K|[]]; discriminate K.
Qed.

Lemma cells_no_backspace (l : list Coordinate) :
  ~ In Text.backspace (list_ascii_of_string (Text.cells l)).
Proof.
  induction l as [|c l IH]; cbn [Text.cells]; [intros []|].
  rewrite !chars_append; intros K.
  apply in_app_or in K; destruct K as [K|K]; [exact (cell_no_backspace c K)|].
  apply in_app_or in K; destruct K as [K|K]; [|exact (IH K)].
  simpl in K; repeat (destruct K as [K|K]; [discriminate K|]); exact K.
Qed.

Lemma print_Life_empty (out : string) (g : Life) :
  LiveCells g = [] -> Text.print_Life out g = (out ++ "{}")%string.
Proof. intros H; unfold Text.print_Life; now rewrite H. Qed.

(** X12. What [operator<<] writes for a game.  It appends to the stream;
    for a game without live cells it writes the two characters of an
    empty pair of braces; otherwise it writes an opening brace, every
    live cell in ascending order followed by the separator [" , "], then
    three backspace characters and the closing brace.  So the separator
    after the last cell is part of the output, and the output holds a
    backspace character exactly when the game has a live cell: three of
    them. *)
Theorem print_Life_text (out : string) (g : Life) :
  Text.print_Life out g = (out ++ Text.print_Life EmptyString g)%string /\
  (LiveCells g = [] -> Text.print_Life out g = (out ++ "{}")%string) /\
  (forall l c, LiveCells g = l ++ [c] ->
     Text.print_Life out g
     = (out ++ "{" ++ Text.cells l ++ Text.cell c ++ " , "
            ++ Text.backspaces ++ "}")%string) /\
  count_occ ascii_dec (list_ascii_of_string (Text.print_Life EmptyString g))
            Text.backspace
  = match LiveCells g with [] => 0%nat | _ :: _ => 3%nat end.
Proof.
  assert (E : LiveCells g = [] ->
              forall o, Text.print_Life o g = (o ++ "{}")%string)
    by (intros H o; now apply print_Life_empty).
  split; [|split; [|split]].
  - destruct (LiveCells g) as [|c l] eqn:L.
    + now rewrite !(E eq_refl).
    + rewrite !print_Life_nonempty by (rewrite L; discriminate).
      reflexivity.
  - intros H; now apply E.
  - intros l c L.
    rewrite print_Life_nonempty by (rewrite L; now destruct l).
    rewrite L, cells_snoc; now rewrite !append_assoc.
  - destruct (LiveCells g) as [|c l] eqn:L.
    + now rewrite (E eq_refl).
    + rewrite print_Life_nonempty by (rewrite L; discriminate).
      rewrite L, !chars_append, !count_occ_app.
      rewrite (proj1 (count_occ_not_In ascii_dec _ _) (cells_no_backspace (c :: l))).
      reflexivity.
Qed.

Lemma print_Life_text_witness :
  LiveCells (newLife_of_list [origin]) = [] ++ [origin] /\
  Text.print_Life "Game: "%string (newLife_of_list [origin])
  = ("Game: {(0,0) , " ++ Text.backspaces ++ "}")%string.
Proof.
  assert (L : LiveCells (newLife_of_list [origin]) = [] ++ [origin]) by reflexivity.
  split; [exact L|].
  exact (proj1 (proj2 (proj2 (print_Life_text "Game: "%string _))) _ _ L).
Defined.

Lemma cells_inj (l l' : list Coordinate) (t : string) :
  (Text.cells l ++ Text.backspaces ++ t)%string
  = (Text.cells l' ++ Text.backspaces ++ t)%string ->
  l = l'.
Proof.
  intros E; apply (f_equal list_ascii_of_string) in E; revert l' E.
  induction l as [|c l IH]; intros [|c' l']; cbn [Text.cells].
  - reflexivity.
  - rewrite !chars_append, <- !app_assoc, chars_cell.
    cbn [list_ascii_of_string Text.backspaces app]; discriminate.
  - rewrite !chars_append, <- !app_assoc, chars_cell.
    cbn [list_ascii_of_string Text.backspaces app]; discriminate.
  - rewrite !(chars_append (Text.cell _ ++ _)), !(chars_append (Text.cell _)).
    rewrite <- !app_assoc; intros E.
    apply cell_prefix_inj in E; destruct E as [-> E].
    rewrite <- !chars_append in E; apply chars_inj in E.
    rewrite !append_assoc in E.
    apply append_inv_head in E; f_equal; apply IH.
    now rewrite E.
Qed.

(** X13. The text [operator<<] writes names the live set: two games
    whose output is the same have the same live cells. *)
Theorem print_Life_injective (out : string) (g g' : Life) :
  Text.print_Life out g = Text.print_Life out g' ->
  LiveCells g = LiveCells g'.
Proof.
  assert (D : forall c l t, "{}"%string <> ("{" ++ Text.cells (c :: l) ++ t)%string).
  { intros c l t E; apply (f_equal list_ascii_of_string) in E; revert E.
    cbn [Text.cells]; rewrite !chars_append, <- !app_assoc, chars_cell.
    cbn [list_ascii_of_string app]; discriminate. }
  destruct (LiveCells g) as [|c l] eqn:L, (LiveCells g') as [|c' l'] eqn:L'.
  - reflexivity.
  - rewrite (print_Life_empty out g L).
    rewrite print_Life_nonempty, L' by (rewrite L'; discriminate).
    intros E; apply append_inv_head in E; now apply D in E.
  - rewrite (print_Life_empty out g' L').
    rewrite print_Life_nonempty, L by (rewrite L; discriminate).
    intros E; apply append_inv_head in E; symmetry in E; now apply D in E.
  - rewrite !print_Life_nonempty by (rewrite ?L, ?L'; discriminate).
    rewrite L, L'; intros E; do 2 apply append_inv_head in E.
    exact (cells_inj _ _ _ E).
Qed.

Lemma print_Life_injective_witness :
  Text.print_Life EmptyString (newLife_of_list [origin; origin])
    = Text.print_Life EmptyString (mkLife [origin] 7 []) /\
  LiveCells (newLife_of_list [origin; origin]) = LiveCells (mkLife [origin] 7 []).
Proof.
  assert (E : Text.print_Life EmptyString (newLife_of_list [origin; origin])
              = Text.print_Life EmptyString (mkLife [origin] 7 []))
    by reflexivity.
  split; [exact E|].
  exact (print_Life_injective _ _ _ E).
Defined.

(* ================================================================== *)
(** * Centre *)

Lemma length_replicate (n : nat) (c : ascii) :
  String.length (Text.replicate n c) = n.
Proof. induction n as [|n IH]; simpl; [reflexivity|now rewrite IH]. Qed.

Lemma substring_whole (b c : string) :
  substring 0 (String.length b) (b ++ c)%string = b.
Proof.
  induction b as [|ch b IH]; simpl; [now destruct c|now rewrite IH].
Qed.

Lemma substring_skip (a b : string) (m : nat) :
  substring (String.length a) m (a ++ b)%string = substring 0 m b.
Proof. induction a as [|ch a IH]; simpl; [reflexivity|exact IH]. Qed.

Lemma substring_all (c : string) : substring 0 (String.length c) c = c.
Proof. induction c as [|ch c IH]; simpl; [reflexivity|now rewrite IH]. Qed.

Lemma substring_parts (a b c : string) :
  substring 0 (String.length a) (a ++ b ++ c)%string = a /\
  substring (String.length a) (String.length b) (a ++ b ++ c)%string = b /\
  substring (String.length a + String.length b) (String.length c)
            (a ++ b ++ c)%string = c.
Proof.
  split; [apply substring_whole|split].
  - rewrite substring_skip; apply substring_whole.
  - rewrite <- length_append, <- append_assoc, substring_skip.
    apply substring_all.
Qed.

Lemma size_t_sub_small (a b : Z) :
  is_unsigned a -> 0 <= b <= a -> Text.size_t_sub a b = a - b.
Proof.
  unfold is_unsigned, Unsigned.max_unsigned, Text.size_t_sub; intros Ha Hb.
  apply Z.mod_small; lia.
Qed.

Lemma Centre_padding (in_ : string) (length_ : Z) :
  is_unsigned length_ -> Z.of_nat (String.length in_) <= length_ ->
  Text.Centre in_ length_
  = Some (Text.replicate (Z.to_nat ((length_ - Z.of_nat (String.length in_)) / 2)) "*"
          ++ in_
          ++ Text.replicate (Z.to_nat ((length_ - Z.of_nat (String.length in_)) / 2)) "*")%string.
Proof.
  intros Hu Hl; unfold Text.Centre.
  destruct (Z.geb_spec length_ (Z.of_nat (String.length in_))) as [_|K]; [|lia].
  rewrite size_t_sub_small by (auto; lia).
  now rewrite append_assoc.
Qed.

(** X14. [Centre] fails its assertion exactly when the requested length
    is below the length of the string.  Otherwise the result is never
    longer than requested: it has the requested length when the
    difference of the two lengths is even, and is one character short
    when it is odd. *)
Theorem Centre_length (in_ : string) (length_ : Z) :
  is_unsigned length_ ->
  (Text.Centre in_ length_ = None <-> length_ < Z.of_nat (String.length in_)) /\
  (forall r, Text.Centre in_ length_ = Some r ->
     Z.of_nat (String.length r)
     = length_ - (length_ - Z.of_nat (String.length in_)) mod 2).
Proof.
  intros Hu; split.
  - unfold Text.Centre.
    destruct (Z.geb_spec length_ (Z.of_nat (String.length in_))) as [K|K];
      split; intros H; try reflexivity; try discriminate H; lia.
  - intros r E.
    assert (Hl : Z.of_nat (String.length in_) <= length_).
    { unfold Text.Centre in E.
      destruct (Z.geb_spec length_ (Z.of_nat (String.length in_))) as [K|K];
        [exact K|discriminate E]. }
    rewrite Centre_padding in E by assumption; injection E as <-.
    rewrite !length_append, !length_replicate.
    unfold is_unsigned in Hu.
    rewrite !Nat2Z.inj_add, Z2Nat.id by (apply Z.div_pos; lia).
    pose proof (Z.div_mod (length_ - Z.of_nat (String.length in_)) 2); lia.
Qed.

Lemma Centre_length_witness :
  is_unsigned 13 /\
  Text.Centre "SCENARIO_0"%string 13 = Some "*SCENARIO_0*"%string /\
  Z.of_nat (String.length "*SCENARIO_0*"%string) = 12.
Proof.
  assert (H : is_unsigned 13) by (repeat split; vm_compute; discriminate).
  assert (E : Text.Centre "SCENARIO_0"%string 13 = Some "*SCENARIO_0*"%string)
    by reflexivity.
  split; [exact H|split; [exact E|]].
  exact (proj2 (Centre_length "SCENARIO_0"%string 13 H) _ E).
Defined.

(** X15. When [Centre] returns, the string it was given sits in the
    middle of the result, between two runs of asterisks of the same
    length, half the difference of the lengths rounded down, and can be
    cut out of the result again. *)
Theorem Centre_middle (in_ r : string) (length_ : Z) :
  is_unsigned length_ -> Text.Centre in_ length_ = Some r ->
  exists k : nat,
    Z.of_nat k = (length_ - Z.of_nat (String.length in_)) / 2 /\
    r = (Text.replicate k "*" ++ in_ ++ Text.replicate k "*")%string /\
    String.length r = (k + String.length in_ + k)%nat /\
    substring 0 k r = Text.replicate k "*" /\
    substring k (String.length in_) r = in_ /\
    substring (k + String.length in_) k r = Text.replicate k "*".
Proof.
  intros Hu E.
  assert (Hl : Z.of_nat (String.length in_) <= length_).
  { unfold Text.Centre in E.
    destruct (Z.geb_spec length_ (Z.of_nat (String.length in_))) as [K|K];
      [exact K|discriminate E]. }
  rewrite Centre_padding in E by assumption; injection E as <-.
  set (k := Z.to_nat ((length_ - Z.of_nat (String.length in_)) / 2)).
  pose proof (substring_parts (Text.replicate k "*") in_ (Text.replicate k "*")) as P.
  rewrite !length_replicate in P.
  exists k; split; [|split; [reflexivity|split; [|split; [|split]]]].
  - unfold k; apply Z2Nat.id, Z.div_pos; lia.
  - rewrite !length_append, !length_replicate; lia.
  - exact (proj1 P).
  - exact (proj1 (proj2 P)).
  - exact (proj2 (proj2 P)).
Qed.

Lemma Centre_middle_witness :
  is_unsigned 50 /\
  Text.Centre "SCENARIO_0"%string 50
    = Some "********************SCENARIO_0********************"%string /\
  exists k : nat,
    substring k 10 "********************SCENARIO_0********************"%string
    = "SCENARIO_0"%string.
Proof.
  assert (H : is_unsigned 50) by (repeat split; vm_compute; discriminate).
  assert (E : Text.Centre "SCENARIO_0"%string 50
              = Some "********************SCENARIO_0********************"%string)
    by reflexivity.
  split; [exact H|split; [exact E|]].
  destruct (Centre_middle _ _ _ H E) as [k [_ [_ [_ [_ [K _]]]]]].
  exists k; exact K.
Defined.
